(** * gnark orchestration core: solver options, backend dispatch, SRS cache,
      test engine, eddsa gadget and emulated curve parameters.

    Shallow embedding of the Go sources and the properties proved about
    them.  Go values are modelled as follows:
    - [big.Int], [int], [uint64]: [Z], wrap-around written out;
    - Go maps: [gmap]; a map is a reference, so maps that can be aliased
      live in a heap and are named by locations;
    - a call that may panic returns an [Outcome];
    - package-level variables and the log sink are fields of an explicit
      state that every operation threads. *)

From Stdlib Require Import ZArith String List Ascii Lia.
From Stdlib Require HexadecimalString HexadecimalN.
From stdpp Require Import base option gmap strings list pretty.

Open Scope string_scope.
Open Scope Z_scope.

(* ===================================================================== *)
(** ** Go runtime notions shared by all packages                          *)
(* ===================================================================== *)

Module Go.

(** A Go call either returns or panics. *)
Inductive Outcome (A : Type) : Type :=
| Ret (a : A)
| Panic (msg : string).
Arguments Ret {A} a.
Arguments Panic {A} msg.

(** Go's [error]: [None] is [nil]. *)
Definition error : Type := option string.

Definition uint64_mod : Z := 2 ^ 64.

(** Conversion to [uint64] and [uint64] addition. *)
Definition to_uint64 (z : Z) : Z := z mod uint64_mod.
Definition add64 (a b : Z) : Z := (a + b) mod uint64_mod.

(** Methods [IsUint64] and [Uint64] of [big.Int]. *)
Definition IsUint64 (z : Z) : bool := (0 <=? z) && (z <? uint64_mod).
Definition Uint64 (z : Z) : Z := Z.abs z mod uint64_mod.

End Go.

(** zerolog records, as far as the sources build them. *)
Module Zerolog.

Inductive Level := WarnLevel | ErrorLevel.

Inductive Field :=
| FInt (key : string) (v : Z)
| FStr (key : string) (v : string)
| FErr (e : string).

Record Event := mkEvent { level : Level; fields : list Field; message : string }.

End Zerolog.

(* ===================================================================== *)
(** ** constraint/solver/options.go                                       *)
(* ===================================================================== *)

Module Solver.
Import Go.

Section Options.

(** [HintFn] is a Go function value, [ZLogger] is [zerolog.Logger]. *)
Context {HintFn ZLogger : Type}.
(** [logger.Logger()] and the zero value [zerolog.Logger{}]. *)
Variable defaultLogger zeroLogger : ZLogger.

(** [type HintID uint32]. *)
Record Hint := mkHint { ID : N; Fn : HintFn }.

(** A map value is [nil] ([None]) or a reference to a map in the heap. *)
Definition mapref : Type := option positive.

Record Config := mkConfig { HintFunctions : mapref; Logger : ZLogger }.

(** The heap of hint maps, the package variable holding the global
    registry, and the records sent to the global logger. *)
Record Heap := mkHeap {
  maps : gmap positive (gmap N HintFn);
  registry : mapref;
  log : list Zerolog.Event
}.

Definition deref (h : Heap) (r : mapref) : option (gmap N HintFn) :=
  match r with
  | Some l => maps h !! l
  | None => None
  end.

(** [_, ok := m[k]]: reading a nil map finds nothing. *)
Definition mapread (h : Heap) (r : mapref) (k : N) : option HintFn :=
  match deref h r with
  | Some m => m !! k
  | None => None
  end.

(** [m[k] = v]: [None] when [m] is nil (Go panics). *)
Definition mapwrite (h : Heap) (r : mapref) (k : N) (v : HintFn) : option Heap :=
  match r with
  | Some l =>
      match maps h !! l with
      | Some m => Some (mkHeap (<[l := <[k := v]> m]> (maps h)) (registry h) (log h))
      | None => None
      end
  | None => None
  end.

Definition send (e : Zerolog.Event) (h : Heap) : Heap :=
  mkHeap (maps h) (registry h) (log h ++ [e]).

Definition nil_map_panic : string := "assignment to entry in nil map".

(** An [Option] is a function from a pointer to [Config] to [error]: the
    configuration is passed by pointer, so an option returns the
    configuration it leaves behind. *)
Definition Option : Type := Config -> Heap -> Outcome error * (Config * Heap).

Definition duplicate_warning (uuid : N) : Zerolog.Event :=
  Zerolog.mkEvent Zerolog.WarnLevel
    [Zerolog.FInt "hintID" (Z.of_N uuid); Zerolog.FStr "id" (pretty uuid)]
    "duplicate hint function".

(** One iteration of the loop of [WithHints]. *)
Definition withHints_step (r : mapref) (x : Hint) (h : Heap) : option Heap :=
  let uuid := ID x in
  match mapread h r uuid with
  | Some _ => Some (send (duplicate_warning uuid) h)
  | None => mapwrite h r uuid (Fn x)
  end.

Fixpoint withHints_loop (r : mapref) (hintFunctions : list Hint) (h : Heap)
  : Outcome error * Heap :=
  match hintFunctions with
  | [] => (Ret None, h)
  | x :: rest =>
      match withHints_step r x h with
      | Some h' => withHints_loop r rest h'
      | None => (Panic nil_map_panic, h)
      end
  end.

Definition WithHints (hintFunctions : list Hint) : Option :=
  fun opt h =>
    let '(res, h') := withHints_loop (HintFunctions opt) hintFunctions h in
    (res, (opt, h')).

Definition OverrideHint (id : N) (f : HintFn) : Option :=
  fun opt h =>
    match mapwrite h (HintFunctions opt) id f with
    | Some h' => (Ret None, (opt, h'))
    | None => (Panic nil_map_panic, (opt, h))
    end.

Definition WithLogger (l : ZLogger) : Option :=
  fun opt h => (Ret None, (mkConfig (HintFunctions opt) l, h)).

(** Modelled from the spec: [solver.GetRegisteredHints] is not part of the
    sources at hand; the registry is "a mapping HintID -> HintFunction,
    global", and the accessor hands out that very map. *)
Definition GetRegisteredHints (h : Heap) : mapref := registry h.

(** [for k, v := range src { dst[k] = v }] over the entries of [src]. *)
Fixpoint copy_entries (dst : mapref) (entries : list (N * HintFn)) (h : Heap)
  : Outcome unit * Heap :=
  match entries with
  | [] => (Ret tt, h)
  | (k, v) :: rest =>
      match mapwrite h dst k v with
      | Some h' => copy_entries dst rest h'
      | None => (Panic nil_map_panic, h)
      end
  end.

Definition range_entries (h : Heap) (src : mapref) : list (N * HintFn) :=
  match deref h src with
  | Some m => map_to_list m
  | None => []
  end.

(** The option loop of [NewConfig]. *)
Fixpoint applyOptions (opts : list Option) (opt : Config) (h : Heap)
  : Outcome (Config * error) * Heap :=
  match opts with
  | [] => (Ret (opt, None), h)
  | option :: rest =>
      match option opt h with
      | (Ret None, (opt', h')) => applyOptions rest opt' h'
      | (Ret (Some err), (_, h')) => (Ret (mkConfig None zeroLogger, Some err), h')
      | (Panic msg, (_, h')) => (Panic msg, h')
      end
  end.

(** [make(map[HintID]HintFn)]. *)
Definition make_map (h : Heap) : positive * Heap :=
  let l := fresh (dom (maps h)) in
  (l, mkHeap (<[l := ∅]> (maps h)) (registry h) (log h)).

Definition NewConfig (opts : list Option) (h : Heap)
  : Outcome (Config * error) * Heap :=
  let '(l, h0) := make_map h in
  let opt := mkConfig (Some l) defaultLogger in
  match copy_entries (HintFunctions opt) (range_entries h0 (GetRegisteredHints h0)) h0 with
  | (Ret _, h1) => applyOptions opts opt h1
  | (Panic msg, h1) => (Panic msg, h1)
  end.

(** The options this package exports. *)
Inductive exported : Option -> Prop :=
| exported_WithHints hs : exported (WithHints hs)
| exported_OverrideHint id f : exported (OverrideHint id f)
| exported_WithLogger l : exported (WithLogger l).

End Options.

(* --------------------------------------------------------------------- *)
(** *** Properties of the options                                         *)
(* --------------------------------------------------------------------- *)

Section OptionFacts.
Context {HintFn ZLogger : Type}.
Variable defaultLogger zeroLogger : ZLogger.
Implicit Types (h : @Heap HintFn) (opt : @Config ZLogger) (m : gmap N HintFn).
Implicit Types (x : @Hint HintFn) (r : mapref) (l : positive).

(** [frame l h h']: going from [h] to [h'], only the map at [l] and the
    log may have changed. *)
Definition frame l h h' : Prop :=
  registry h' = registry h /\
  forall l', l' <> l -> maps h' !! l' = maps h !! l'.

Lemma frame_refl l h : frame l h h.
Proof. by split. Qed.

Lemma frame_trans l h1 h2 h3 : frame l h1 h2 -> frame l h2 h3 -> frame l h1 h3.
Proof.
  intros [Hr1 Hm1] [Hr2 Hm2]. split; [congruence|].
  intros l' Hne. rewrite Hm2, Hm1; auto.
Qed.

Lemma mapwrite_alloc h l m k v :
  maps h !! l = Some m ->
  mapwrite h (Some l) k v
  = Some (mkHeap (<[l := <[k := v]> m]> (maps h)) (registry h) (log h)).
Proof. intros Hm. unfold mapwrite. by rewrite Hm. Qed.

Lemma mapwrite_frame h h' l k v :
  mapwrite h (Some l) k v = Some h' -> frame l h h' /\ log h' = log h.
Proof.
  unfold mapwrite. destruct (maps h !! l) as [m|] eqn:Hm; [|done].
  intros [= <-]. repeat split; simpl.
  intros l' Hne. by rewrite lookup_insert_ne.
Qed.

Lemma send_frame l e h : frame l h (send e h).
Proof. by split. Qed.

(** The effect of one loop iteration on an allocated map. *)
Lemma withHints_step_alloc h l m x :
  maps h !! l = Some m ->
  exists h',
    withHints_step (Some l) x h = Some h' /\
    frame l h h' /\
    match m !! ID x with
    | Some _ => h' = send (duplicate_warning (ID x)) h
    | None =>
        maps h' !! l = Some (<[ID x := Fn x]> m) /\ log h' = log h
    end.
Proof.
  intros Hm. unfold withHints_step, mapread, deref. rewrite Hm.
  destruct (m !! ID x) as [f|] eqn:Hk.
  - eexists; split; [reflexivity|]. split; [apply send_frame|done].
  - rewrite (mapwrite_alloc _ _ _ _ _ Hm).
    eexists; split; [reflexivity|]. split.
    + split; [done|]. intros l' Hne. simpl. by rewrite lookup_insert_ne.
    + simpl. by rewrite lookup_insert_eq.
Qed.

Lemma withHints_step_grows h h' l m x :
  maps h !! l = Some m ->
  withHints_step (Some l) x h = Some h' ->
  exists m', maps h' !! l = Some m' /\ m ⊆ m'.
Proof.
  intros Hm Hs.
  destruct (withHints_step_alloc h l m x Hm) as (h2 & Hs2 & _ & Hcase).
  rewrite Hs in Hs2. injection Hs2 as <-.
  destruct (m !! ID x) as [f|] eqn:Hk.
  - subst h'. exists m. by split.
  - destruct Hcase as [Hm' _]. eexists; split; [exact Hm'|].
    by apply insert_subseteq.
Qed.

(** The loop never fails on an allocated map, and only adds entries. *)
Lemma withHints_loop_alloc hs : forall h l m,
  maps h !! l = Some m ->
  exists h' m',
    withHints_loop (Some l) hs h = (Ret None, h') /\
    maps h' !! l = Some m' /\ m ⊆ m' /\ frame l h h'.
Proof.
  induction hs as [|x hs IH]; intros h l m Hm; simpl.
  - exists h, m. repeat split; done.
  - destruct (withHints_step_alloc h l m x Hm) as (h1 & Hs & Hf & _).
    rewrite Hs.
    destruct (withHints_step_grows _ _ _ _ _ Hm Hs) as (m1 & Hm1 & Hsub).
    destruct (IH h1 l m1 Hm1) as (h' & m' & Hrun & Hm' & Hsub' & Hf').
    exists h', m'. repeat split; try done.
    + by etrans.
    + apply (frame_trans l h h1 h'); assumption.
    + destruct Hf as [_ Hf]. destruct Hf' as [_ Hf'].
      intros l' Hne. rewrite Hf', Hf; auto.
Qed.

Lemma withHints_loop_app hs1 : forall hs2 r h h1,
  withHints_loop r hs1 h = (Ret None, h1) ->
  withHints_loop r (hs1 ++ hs2) h = withHints_loop r hs2 h1.
Proof.
  induction hs1 as [|x hs1 IH]; intros hs2 r h h1; simpl.
  - by intros [= <-].
  - destruct (withHints_step r x h) as [h'|]; [|done]. apply IH.
Qed.

(** C7. For a configuration whose hint map is allocated and every
    sequence of hints [before ++ x :: after] handed to [WithHints]: the
    hints before [x] are processed without error and leave a map [m1]
    that still holds every entry of the original map; then [x] is
    handled according to [m1]: when [ID x] already maps to a function
    the map is left as it is and a duplicate-hint warning is logged,
    otherwise [ID x] is bound to [Fn x] and nothing is logged; the
    remaining hints are processed from there. *)
Theorem WithHints_each_hint opt h m before x after :
  deref h (HintFunctions opt) = Some m ->
  exists h1 m1 h2,
    WithHints before opt h = (Ret None, (opt, h1)) /\
    deref h1 (HintFunctions opt) = Some m1 /\ m ⊆ m1 /\
    WithHints (before ++ x :: after) opt h = WithHints after opt h2 /\
    match m1 !! ID x with
    | Some _ =>
        h2 = send (duplicate_warning (ID x)) h1 /\
        deref h2 (HintFunctions opt) = Some m1
    | None =>
        mapwrite h1 (HintFunctions opt) (ID x) (Fn x) = Some h2 /\
        deref h2 (HintFunctions opt) = Some (<[ID x := Fn x]> m1) /\
        log h2 = log h1
    end.
Proof.
  destruct opt as [[l|] lg]; simpl; [|done]. intros Hm.
  destruct (withHints_loop_alloc before h l m Hm) as (h1 & m1 & Hrun & Hm1 & Hsub & _).
  destruct (withHints_step_alloc h1 l m1 x Hm1) as (h2 & Hs & _ & Hcase).
  exists h1, m1, h2. unfold WithHints. simpl.
  rewrite Hrun. repeat split; try done.
  - rewrite (withHints_loop_app _ _ _ _ _ Hrun). simpl. by rewrite Hs.
  - unfold withHints_step, mapread, deref in Hs. rewrite Hm1 in Hs.
    destruct (m1 !! ID x) as [f|] eqn:Hk.
    + subst h2. by split.
    + destruct Hcase as [Hm2 Hlog]. by repeat split.
Qed.

(** Copying a list of entries into an allocated map inserts them one
    after the other and touches nothing else. *)
Lemma copy_entries_alloc entries : forall h l m,
  maps h !! l = Some m ->
  copy_entries (Some l) entries h
  = (Ret tt,
     mkHeap (<[l := foldl (fun acc kv => <[kv.1 := kv.2]> acc) m entries]> (maps h))
            (registry h) (log h)).
Proof.
  induction entries as [|[k v] entries IH]; intros h l m Hm; simpl.
  - rewrite insert_id by done. by destruct h.
  - rewrite Hm.
    rewrite (IH _ l (<[k := v]> m)) by (simpl; apply lookup_insert_eq).
    simpl. by rewrite insert_insert_eq.
Qed.

(** Inserting every entry of a map into the empty map rebuilds the map,
    whatever the iteration order. *)
Lemma copy_all_entries m :
  foldl (fun acc kv => <[kv.1 := kv.2]> acc) (∅ : gmap N HintFn) (map_to_list m) = m.
Proof.
  assert (Hrev : forall es : list (N * HintFn),
    foldl (fun acc kv => <[kv.1 := kv.2]> acc) (∅ : gmap N HintFn) es
    = list_to_map (reverse es)).
  { induction es as [|[k v] es IH] using rev_ind; [done|].
    rewrite foldl_app, reverse_app, IH. reflexivity. }
  rewrite Hrev.
  rewrite <- (list_to_map_to_list m) at 2.
  symmetry. apply list_to_map_proper.
  - apply NoDup_fst_map_to_list.
  - symmetry. apply reverse_Permutation.
Qed.

(** An exported option keeps the configuration's map reference and writes
    to no other map. *)
Lemma exported_frame (o : Option) opt h l :
  exported o ->
  HintFunctions opt = Some l ->
  is_Some (maps h !! l) ->
  exists res opt' h',
    o opt h = (res, (opt', h')) /\
    HintFunctions opt' = Some l /\ is_Some (maps h' !! l) /\ frame l h h' /\
    (forall e, res <> Ret (Some e)).
Proof.
  intros Ho Hl [m Hm]. destruct Ho as [hs|id f|lg].
  - destruct (withHints_loop_alloc hs h l m Hm) as (h' & m' & Hrun & Hm' & _ & Hf).
    exists (Ret None), opt, h'. unfold WithHints. rewrite Hl, Hrun.
    repeat split; try done; apply Hf.
  - unfold OverrideHint. rewrite Hl, (mapwrite_alloc _ _ _ _ _ Hm).
    eexists _, _, _. split; [reflexivity|]. repeat split; try done; simpl.
    + rewrite lookup_insert_eq. by eexists.
    + intros l' Hne. by rewrite lookup_insert_ne.
  - exists (Ret None), (mkConfig (HintFunctions opt) lg), h.
    split; [reflexivity|]. split; [exact Hl|]. split; [by eexists|].
    split; [apply frame_refl|done].
Qed.

Lemma applyOptions_frame opts : forall opt h l,
  Forall exported opts ->
  HintFunctions opt = Some l ->
  is_Some (maps h !! l) ->
  frame l h (snd (applyOptions zeroLogger opts opt h)).
Proof.
  induction opts as [|o opts IH]; intros opt h l Hall Hl Hm; simpl.
  - apply frame_refl.
  - inversion Hall as [|? ? Ho Hrest]; subst.
    destruct (exported_frame o opt h l Ho Hl Hm)
      as (res & opt' & h' & Heq & Hl' & Hm' & Hf & Hne).
    rewrite Heq. destruct res as [[e|]|msg]; simpl.
    + by destruct (Hne e).
    + eapply frame_trans; [exact Hf|]. by apply IH.
    + exact Hf.
Qed.

(** C8. [NewConfig] allocates a fresh map, fills it with exactly the
    entries of the global registry, and runs the options in order on the
    configuration holding that map and the default logger.  When the
    options are those the package exports ([WithHints], [OverrideHint],
    [WithLogger]), the registry variable and the registry's contents are
    after the call what they were before, and so is every other map that
    existed before the call. *)
Theorem NewConfig_copies_and_preserves_registry
    (opts : list Option) h (r : positive) (R : gmap N HintFn) :
  registry h = Some r ->
  maps h !! r = Some R ->
  Forall exported opts ->
  exists l,
    (l ∉ dom (maps h)) /\
    NewConfig defaultLogger zeroLogger opts h
    = applyOptions zeroLogger opts (mkConfig (Some l) defaultLogger)
        (mkHeap (<[l := R]> (maps h)) (registry h) (log h)) /\
    registry (snd (NewConfig defaultLogger zeroLogger opts h)) = Some r /\
    maps (snd (NewConfig defaultLogger zeroLogger opts h)) !! r = Some R /\
    forall l', l' ∈ dom (maps h) ->
      maps (snd (NewConfig defaultLogger zeroLogger opts h)) !! l' = maps h !! l'.
Proof.
  intros Hr HR Hall.
  set (l := fresh (dom (maps h))).
  assert (Hfresh : l ∉ dom (maps h)) by apply is_fresh.
  assert (Hlr : r <> l).
  { intros ->. apply Hfresh. apply elem_of_dom. by eexists. }
  assert (Hrun : NewConfig defaultLogger zeroLogger opts h
    = applyOptions zeroLogger opts (mkConfig (Some l) defaultLogger)
        (mkHeap (<[l := R]> (maps h)) (registry h) (log h))).
  { unfold NewConfig, make_map, GetRegisteredHints, range_entries, deref.
    fold l. simpl. rewrite Hr. rewrite lookup_insert_ne by done. rewrite HR.
    rewrite (copy_entries_alloc _ _ l ∅) by (simpl; apply lookup_insert_eq).
    simpl. by rewrite insert_insert_eq, copy_all_entries. }
  exists l. split; [done|]. split; [done|].
  rewrite Hrun.
  pose proof (applyOptions_frame opts (mkConfig (Some l) defaultLogger)
    (mkHeap (<[l := R]> (maps h)) (registry h) (log h)) l Hall eq_refl) as [Hreg Hmaps].
  { simpl. rewrite lookup_insert_eq. by eexists. }
  simpl in Hreg, Hmaps. repeat split.
  - by rewrite Hreg.
  - rewrite Hmaps by done. by rewrite lookup_insert_ne.
  - intros l' Hin. assert (l' <> l) by (intros ->; done).
    rewrite Hmaps by done. by rewrite lookup_insert_ne.
Qed.

End OptionFacts.

(* --------------------------------------------------------------------- *)
(** *** Concrete runs                                                     *)
(* --------------------------------------------------------------------- *)

(** Hint functions and loggers are named by strings in the examples. *)
Definition demo_heap : @Heap string :=
  mkHeap {[ 1%positive := {[ 7%N := "registered" ]} ]} (Some 1%positive) [].

Definition demo_config : @Config string := mkConfig (Some 2%positive) "cfg".

Definition demo_config_heap : @Heap string :=
  mkHeap {[ 1%positive := {[ 7%N := "registered" ]};
            2%positive := {[ 7%N := "registered" ]} ]} (Some 1%positive) [].

Example WithHints_demo :
  WithHints [mkHint 3%N "a"; mkHint 7%N "b"; mkHint 3%N "c"] demo_config demo_config_heap
  = (Ret None,
     (demo_config,
      mkHeap {[ 1%positive := {[ 7%N := "registered" ]};
                2%positive := {[ 7%N := "registered"; 3%N := "a" ]} ]}
             (Some 1%positive)
             [duplicate_warning 7; duplicate_warning 3])).
Proof. vm_compute. reflexivity. Qed.

Example NewConfig_demo :
  NewConfig "gnark" "" [OverrideHint 7%N "override"; WithLogger "mine"] demo_heap
  = (Ret (mkConfig (Some 2%positive) "mine", None),
     mkHeap {[ 1%positive := {[ 7%N := "registered" ]};
               2%positive := {[ 7%N := "override" ]} ]} (Some 1%positive) []).
Proof. vm_compute. reflexivity. Qed.

Lemma WithHints_each_hint_witness :
  exists h1 m1 h2,
    WithHints [mkHint 3%N "a"] demo_config demo_config_heap = (Ret None, (demo_config, h1)) /\
    deref h1 (HintFunctions demo_config) = Some m1 /\
    ({[ 7%N := "registered" ]} : gmap N string) ⊆ m1 /\
    WithHints ([mkHint 3%N "a"] ++ mkHint 7%N "b" :: [mkHint 3%N "c"]) demo_config demo_config_heap
    = WithHints [mkHint 3%N "c"] demo_config h2 /\
    match m1 !! ID (mkHint 7%N "b") with
    | Some _ =>
        h2 = send (duplicate_warning (ID (mkHint 7%N "b"))) h1 /\
        deref h2 (HintFunctions demo_config) = Some m1
    | None =>
        mapwrite h1 (HintFunctions demo_config) (ID (mkHint 7%N "b")) (Fn (mkHint 7%N "b")) = Some h2 /\
        deref h2 (HintFunctions demo_config) = Some (<[ID (mkHint 7%N "b") := Fn (mkHint 7%N "b")]> m1) /\
        log h2 = log h1
    end.
Proof.
  apply (WithHints_each_hint demo_config demo_config_heap {[ 7%N := "registered" ]}).
  vm_compute. reflexivity.
Defined.

Lemma NewConfig_copies_and_preserves_registry_witness :
  registry (snd (NewConfig "gnark" "" [OverrideHint 7%N "override"; WithLogger "mine"] demo_heap))
    = Some 1%positive /\
  maps (snd (NewConfig "gnark" "" [OverrideHint 7%N "override"; WithLogger "mine"] demo_heap))
    !! 1%positive = Some {[ 7%N := "registered" ]}.
Proof.
  destruct (NewConfig_copies_and_preserves_registry "gnark" ""
              [OverrideHint 7%N "override"; WithLogger "mine"] demo_heap
              1%positive {[ 7%N := "registered" ]})
    as (l & _ & _ & Hreg & Hmap & _).
  - reflexivity.
  - vm_compute. reflexivity.
  - repeat constructor.
  - split; assumption.
Defined.

End Solver.

(* ===================================================================== *)
(** ** std/signature/eddsa: the signature-verification gadget             *)
(* ===================================================================== *)

Module Eddsa.
Import Go.

Section Gadget.

(** A [frontend.Variable] is an [interface{}] holding either a constant
    or a wire of the circuit under construction. *)
Context {wire : Type}.

Inductive frontend_Variable :=
| Const (z : Z)
| Wire (w : wire).

(** [twistededwards.Point]. *)
Record Point := mkPoint { X : frontend_Variable; Y : frontend_Variable }.

(** [twistededwards.CurveParams]. *)
Record CurveParams := mkCurveParams {
  A : Z; D : Z; Cofactor : Z; Order : Z; Base : Z * Z
}.

(** The methods of [twistededwards.Curve] that [Verify] calls, as the
    values they return; that they were called is recorded in the trace. *)
Class Curve := {
  Params : CurveParams;
  Neg : Point -> Point;
  Add : Point -> Point -> Point;
  Double : Point -> Point;
  DoubleBaseScalarMul : Point -> Point -> frontend_Variable -> frontend_Variable -> Point
}.

(** [hash.Hash]: the digest [Sum] returns for the data written so far. *)
Class Hash := { digest : list frontend_Variable -> frontend_Variable }.

Record PublicKey := mkPublicKey { PubA : Point }.
Record Signature := mkSignature { R : Point; S : frontend_Variable }.

(** What [Verify] does to its collaborators, in program order. *)
Inductive Call :=
| HashWrite (v : frontend_Variable)
| HashSum
| CurveNeg (p : Point)
| CurveAdd (p q : Point)
| CurveDouble (p : Point)
| CurveDoubleBaseScalarMul (p1 p2 : Point) (s1 s2 : frontend_Variable)
| CurveAssertIsOnCurve (p : Point)
| ApiAssertIsEqual (a b : frontend_Variable)
| LogSend (e : Zerolog.Event).

(** The data held by the hash object and the calls made so far. *)
Record State := mkState { written : list frontend_Variable; trace : list Call }.

Definition Circ (T : Type) : Type := State -> T * State.

Definition ret {T} (t : T) : Circ T := fun s => (t, s).
Definition bind {T U} (c : Circ T) (k : T -> Circ U) : Circ U :=
  fun s => let '(t, s') := c s in k t s'.

Notation "'let*' x ':=' c 'in' k" := (bind c (fun x => k))
  (at level 10, x pattern, c at level 100, k at level 200).
Notation "c ';;' k" := (bind c (fun _ => k))
  (at level 100, k at level 200, right associativity).

Definition record (c : Call) : Circ unit :=
  fun s => (tt, mkState (written s) (trace s ++ [c])).

Context `{curve : Curve} `{hash : Hash}.

Definition hash_Write (v : frontend_Variable) : Circ unit :=
  fun s => (tt, mkState (written s ++ [v]) (trace s ++ [HashWrite v])).
Definition hash_Sum : Circ frontend_Variable :=
  fun s => (digest (written s), mkState (written s) (trace s ++ [HashSum])).

Definition curve_Neg (p : Point) : Circ Point := record (CurveNeg p) ;; ret (Neg p).
Definition curve_Add (p q : Point) : Circ Point := record (CurveAdd p q) ;; ret (Add p q).
Definition curve_Double (p : Point) : Circ Point := record (CurveDouble p) ;; ret (Double p).
Definition curve_DoubleBaseScalarMul (p1 p2 : Point) (s1 s2 : frontend_Variable) : Circ Point :=
  record (CurveDoubleBaseScalarMul p1 p2 s1 s2) ;; ret (DoubleBaseScalarMul p1 p2 s1 s2).
Definition curve_AssertIsOnCurve (p : Point) : Circ unit := record (CurveAssertIsOnCurve p).
Definition api_AssertIsEqual (a b : frontend_Variable) : Circ unit := record (ApiAssertIsEqual a b).

Definition invalid_cofactor : string := "invalid cofactor".

Definition log_invalid_cofactor : Zerolog.Event :=
  Zerolog.mkEvent Zerolog.ErrorLevel
    [Zerolog.FErr invalid_cofactor; Zerolog.FStr "cofactor" (pretty (Cofactor Params))] "".

Definition log_not_implemented : Zerolog.Event :=
  Zerolog.mkEvent Zerolog.WarnLevel
    [Zerolog.FStr "cofactor" (pretty (Cofactor Params))] "curve cofactor is not implemented".

(** [Verify]. *)
Definition Verify (sig : Signature) (msg : frontend_Variable) (pubKey : PublicKey)
  : Circ error :=
  hash_Write (X (R sig)) ;;
  hash_Write (Y (R sig)) ;;
  hash_Write (X (PubA pubKey)) ;;
  hash_Write (Y (PubA pubKey)) ;;
  hash_Write msg ;;
  let* hRAM := hash_Sum in
  let base := mkPoint (Const (fst (Base Params))) (Const (snd (Base Params))) in
  let* _A := curve_Neg (PubA pubKey) in
  let* Q := curve_DoubleBaseScalarMul base _A (S sig) hRAM in
  curve_AssertIsOnCurve Q ;;
  let* nQ := curve_Neg Q in
  let* Q := curve_Add nQ (R sig) in
  if negb (IsUint64 (Cofactor Params)) then
    record (LogSend log_invalid_cofactor) ;;
    ret (Some invalid_cofactor)
  else
    let cofactor := Uint64 (Cofactor Params) in
    let* Q :=
      if cofactor =? 4 then
        let* Q1 := curve_Double Q in curve_Double Q1
      else if cofactor =? 8 then
        let* Q1 := curve_Double Q in
        let* Q2 := curve_Double Q1 in curve_Double Q2
      else
        record (LogSend log_not_implemented) ;; ret Q
    in
    api_AssertIsEqual (X Q) (Const 0) ;;
    api_AssertIsEqual (Y Q) (Const 1) ;;
    ret None.

(** The calls every run makes before it looks at the cofactor, and the
    point [R - ([S]G - [H(R,A,M)]A)] they produce. *)
Definition hRAM_of (sig : Signature) (msg : frontend_Variable) (pubKey : PublicKey) (s : State)
  : frontend_Variable :=
  digest (written s ++ [X (R sig); Y (R sig); X (PubA pubKey); Y (PubA pubKey); msg]).

Definition sG_minus_hA (sig : Signature) (msg : frontend_Variable) (pubKey : PublicKey) (s : State)
  : Point :=
  DoubleBaseScalarMul
    (mkPoint (Const (fst (Base Params))) (Const (snd (Base Params))))
    (Neg (PubA pubKey)) (S sig) (hRAM_of sig msg pubKey s).

Definition lhs_minus_rhs (sig : Signature) (msg : frontend_Variable) (pubKey : PublicKey) (s : State)
  : Point :=
  Add (Neg (sG_minus_hA sig msg pubKey s)) (R sig).

Definition prelude (sig : Signature) (msg : frontend_Variable) (pubKey : PublicKey) (s : State)
  : list Call :=
  [ HashWrite (X (R sig)); HashWrite (Y (R sig));
    HashWrite (X (PubA pubKey)); HashWrite (Y (PubA pubKey)); HashWrite msg;
    HashSum;
    CurveNeg (PubA pubKey);
    CurveDoubleBaseScalarMul
      (mkPoint (Const (fst (Base Params))) (Const (snd (Base Params))))
      (Neg (PubA pubKey)) (S sig) (hRAM_of sig msg pubKey s);
    CurveAssertIsOnCurve (sG_minus_hA sig msg pubKey s);
    CurveNeg (sG_minus_hA sig msg pubKey s);
    CurveAdd (Neg (sG_minus_hA sig msg pubKey s)) (R sig) ].

Definition is_Double (c : Call) : bool :=
  match c with CurveDouble _ => true | _ => false end.
Definition is_AssertIsEqual (c : Call) : bool :=
  match c with ApiAssertIsEqual _ _ => true | _ => false end.

Definition after_prelude (sig : Signature) (msg : frontend_Variable) (pubKey : PublicKey)
    (s : State) (rest : list Call) : State :=
  mkState (written s ++ [X (R sig); Y (R sig); X (PubA pubKey); Y (PubA pubKey); msg])
          (trace s ++ prelude sig msg pubKey s ++ rest).

(* --------------------------------------------------------------------- *)
(** *** Properties of [Verify]                                            *)
(* --------------------------------------------------------------------- *)

Lemma app_assoc_snoc {T} (l : list T) (x : T) (k : list T) :
  ((l ++ [x]) ++ k = l ++ x :: k)%list.
Proof. by rewrite <- app_assoc. Qed.

Ltac run_Verify :=
  unfold Verify, after_prelude, prelude, lhs_minus_rhs, sG_minus_hA, hRAM_of,
    curve_Neg, curve_Add, curve_Double, curve_DoubleBaseScalarMul,
    curve_AssertIsOnCurve, api_AssertIsEqual, hash_Write, hash_Sum,
    record, bind, ret; simpl;
  repeat rewrite app_assoc_snoc; repeat rewrite <- app_assoc; simpl.

(** C1. Whatever the curve, the hash, the key, the signature and the
    message: with [Q' = R - ([S]G - [H(R,A,M)]A)], a cofactor of 4 makes
    [Verify] call [Double] exactly twice and a cofactor of 8 exactly
    three times, each on the result of the previous call, starting from
    [Q']; any other cofactor that fits a uint64 makes it send one warning
    and call [Double] not at all.  In each case the run ends with the two
    assertions [X = 0] and [Y = 1] on the resulting point, and returns
    nil. *)
Theorem Verify_cofactor_clearing sig msg pubKey s :
  let Q' := lhs_minus_rhs sig msg pubKey s in
  (Cofactor Params = 4 ->
   Verify sig msg pubKey s
   = (None, after_prelude sig msg pubKey s
        [ CurveDouble Q'; CurveDouble (Double Q');
          ApiAssertIsEqual (X (Double (Double Q'))) (Const 0);
          ApiAssertIsEqual (Y (Double (Double Q'))) (Const 1) ])) /\
  (Cofactor Params = 8 ->
   Verify sig msg pubKey s
   = (None, after_prelude sig msg pubKey s
        [ CurveDouble Q'; CurveDouble (Double Q'); CurveDouble (Double (Double Q'));
          ApiAssertIsEqual (X (Double (Double (Double Q')))) (Const 0);
          ApiAssertIsEqual (Y (Double (Double (Double Q')))) (Const 1) ])) /\
  (0 <= Cofactor Params < 2 ^ 64 -> Cofactor Params <> 4 -> Cofactor Params <> 8 ->
   Verify sig msg pubKey s
   = (None, after_prelude sig msg pubKey s
        [ LogSend log_not_implemented;
          ApiAssertIsEqual (X Q') (Const 0);
          ApiAssertIsEqual (Y Q') (Const 1) ])).
Proof.
  intros Q'. subst Q'. repeat split.
  - intros Hc. run_Verify. rewrite Hc. simpl. run_Verify. reflexivity.
  - intros Hc. run_Verify. rewrite Hc. simpl. run_Verify. reflexivity.
  - intros Hr H4 H8. run_Verify.
    assert (Hu : IsUint64 (Cofactor Params) = true).
    { unfold IsUint64, uint64_mod. apply andb_true_iff. split; [apply Z.leb_le|apply Z.ltb_lt]; lia. }
    rewrite Hu. simpl.
    assert (Hv : Uint64 (Cofactor Params) = Cofactor Params).
    { unfold Uint64, uint64_mod. rewrite Z.abs_eq by lia. apply Z.mod_small. lia. }
    rewrite Hv.
    destruct (Z.eqb_spec (Cofactor Params) 4) as [|_]; [done|].
    destruct (Z.eqb_spec (Cofactor Params) 8) as [|_]; [done|].
    run_Verify. reflexivity.
Qed.

(** C9. When the cofactor does not fit a uint64, [Verify] returns the
    error "invalid cofactor" (it returns; nothing panics and no assertion
    is involved in the failure).  By then it has made the calls up to the
    computation of [R - ([S]G - [H(R,A,M)]A)] and sent the error to the
    log; it has called neither [Double] nor [AssertIsEqual]. *)
Theorem Verify_invalid_cofactor sig msg pubKey s :
  IsUint64 (Cofactor Params) = false ->
  Verify sig msg pubKey s
  = (Some invalid_cofactor,
     after_prelude sig msg pubKey s [LogSend log_invalid_cofactor]) /\
  Forall (fun c => is_Double c = false /\ is_AssertIsEqual c = false)
    (prelude sig msg pubKey s ++ [LogSend log_invalid_cofactor]).
Proof.
  intros Hu. split.
  - run_Verify. rewrite Hu. simpl. run_Verify. reflexivity.
  - unfold prelude. repeat constructor.
Qed.

End Gadget.

(* --------------------------------------------------------------------- *)
(** *** A small curve to run the gadget on                                *)
(* --------------------------------------------------------------------- *)

(** The Edwards curve [x^2 + y^2 = 1 + 2 x^2 y^2] over the integers
    modulo 13 (eight points, generated by (4,4)), on constants only, with
    a sum for a hash.  The cofactor the parameters declare is left open,
    to exercise every branch of [Verify]. *)
Module Toy.

Definition V : Type := @frontend_Variable Empty_set.
Definition P : Type := @Point Empty_set.

Definition q : Z := 13.
Definition inv (x : Z) : Z := x ^ (q - 2) mod q.

Definition val (v : V) : Z :=
  match v with
  | Const z => z mod q
  | Wire w => match w with end
  end.

Definition pt (x y : Z) : P := mkPoint (Const (x mod q)) (Const (y mod q)).

Definition add (a b : P) : P :=
  let x1 := val (X a) in let y1 := val (Y a) in
  let x2 := val (X b) in let y2 := val (Y b) in
  pt ((x1 * y2 + y1 * x2) * inv (1 + 2 * x1 * x2 * y1 * y2))
     ((y1 * y2 - x1 * x2) * inv (1 - 2 * x1 * x2 * y1 * y2)).

Definition neg (a : P) : P := pt (- val (X a)) (val (Y a)).

Fixpoint mul (n : nat) (a : P) : P :=
  match n with
  | O => pt 0 1
  | Datatypes.S n' => add a (mul n' a)
  end.

Definition curve (cofactor : Z) : @Curve Empty_set := {|
  Params := mkCurveParams 1 2 cofactor 8 (4, 4);
  Neg := neg;
  Add := add;
  Double := fun a => add a a;
  DoubleBaseScalarMul := fun p1 p2 s1 s2 =>
    add (mul (Z.to_nat (val s1)) p1) (mul (Z.to_nat (val s2)) p2)
|}.

Definition hash : @Hash Empty_set := {|
  digest := fun data => Const (foldr (fun v acc => (val v + acc) mod q) 0 data)
|}.

Definition sig : @Signature Empty_set := mkSignature (pt 4 9) (Const 3).
Definition pubKey : @PublicKey Empty_set := mkPublicKey (pt 9 4).
Definition msg : V := Const 5.
Definition s0 : @State Empty_set := mkState [] [].

End Toy.

Example Verify_toy_cofactor_4 :
  map (fun c => (is_Double c, is_AssertIsEqual c))
      (drop 11 (trace (snd (@Verify _ (Toy.curve 4) Toy.hash Toy.sig Toy.msg Toy.pubKey Toy.s0))))
  = [(true, false); (true, false); (false, true); (false, true)].
Proof. vm_compute. reflexivity. Qed.

(** [R - ([S]G - [H(R,A,M)]A)] on the toy curve. *)
Definition toy_Q : Toy.P :=
  @lhs_minus_rhs _ (Toy.curve 8) Toy.hash Toy.sig Toy.msg Toy.pubKey Toy.s0.

Lemma Verify_cofactor_clearing_witness :
  @Verify _ (Toy.curve 8) Toy.hash Toy.sig Toy.msg Toy.pubKey Toy.s0
  = (None, @after_prelude _ (Toy.curve 8) Toy.hash Toy.sig Toy.msg Toy.pubKey Toy.s0
       [ CurveDouble toy_Q; CurveDouble (Toy.add toy_Q toy_Q);
         CurveDouble (Toy.add (Toy.add toy_Q toy_Q) (Toy.add toy_Q toy_Q));
         ApiAssertIsEqual
           (X (Toy.add (Toy.add (Toy.add toy_Q toy_Q) (Toy.add toy_Q toy_Q))
                       (Toy.add (Toy.add toy_Q toy_Q) (Toy.add toy_Q toy_Q)))) (Const 0);
         ApiAssertIsEqual
           (Y (Toy.add (Toy.add (Toy.add toy_Q toy_Q) (Toy.add toy_Q toy_Q))
                       (Toy.add (Toy.add toy_Q toy_Q) (Toy.add toy_Q toy_Q)))) (Const 1) ]).
Proof.
  apply (proj1 (proj2
    (@Verify_cofactor_clearing _ (Toy.curve 8) Toy.hash Toy.sig Toy.msg Toy.pubKey Toy.s0))).
  reflexivity.
Defined.

Lemma Verify_invalid_cofactor_witness :
  fst (@Verify _ (Toy.curve (2 ^ 64)) Toy.hash Toy.sig Toy.msg Toy.pubKey Toy.s0)
  = Some invalid_cofactor.
Proof.
  rewrite (proj1 (@Verify_invalid_cofactor _ (Toy.curve (2 ^ 64)) Toy.hash
                    Toy.sig Toy.msg Toy.pubKey Toy.s0 eq_refl)).
  reflexivity.
Defined.

End Eddsa.

(* ===================================================================== *)
(** ** std/algebra/emulated/sw_emulated/params.go                         *)
(* ===================================================================== *)

Module SwEmulated.
Import Go.

(** [Text(16)] of [big.Int]: lower-case hexadecimal digits without
    leading zeros, "0" for zero, a leading "-" for negative numbers. *)
Definition hex_of_N (n : N) : string :=
  HexadecimalString.NilZero.string_of_uint (N.to_hex_uint n).

Definition Text16 (z : Z) : string :=
  if z <? 0 then "-" ++ hex_of_N (Z.abs_N z) else hex_of_N (Z.to_N z).

(** [emulated.FieldParams], the constraint on the type parameter. *)
Class FieldParams := {
  NbLimbs : Z;
  BitsPerLimb : Z;
  IsPrime : bool;
  Modulus : Z
}.

(** [CurveParams]: [Gm] is the table of multiples of the base point. *)
Record CurveParams := mkCurveParams {
  A : Z; B : Z; Gx : Z; Gy : Z; Gm : list (Z * Z)
}.

Definition secp256k1_text : string :=
  "fffffffffffffffffffffffffffffffffffffffffffffffffffffffefffffc2f".
Definition bn254_text : string :=
  "30644e72e131a029b85045b68181585d97816a916871ca8d3c208c16d87cfd47".
Definition no_stored_parameters : string := "no stored parameters".

(** The base-field moduli of the two curves. *)
Definition secp256k1_modulus : Z := 2 ^ 256 - 2 ^ 32 - 977.
Definition bn254_modulus : Z :=
  21888242871839275222246405745257275088696311157297823662689037894645226208583.

Section Params.

(** From gnark-crypto: the affine generators of the two curves and the
    tables built by [computeSecp256k1Table] and [computeBN254Table]. *)
Variables (secp256k1_g1aff bn254_g1aff : Z * Z).
Variables (computeSecp256k1Table computeBN254Table : list (Z * Z)).

Definition GetSecp256k1Params : CurveParams :=
  mkCurveParams 0 7 (fst secp256k1_g1aff) (snd secp256k1_g1aff) computeSecp256k1Table.

Definition GetBN254Params : CurveParams :=
  mkCurveParams 0 3 (fst bn254_g1aff) (snd bn254_g1aff) computeBN254Table.

(** The package-level variables. *)
Record Package := mkPackage {
  secp256k1Params : CurveParams;
  bn254Params : CurveParams
}.

(** [func init()]. *)
Definition init (_ : Package) : Package :=
  mkPackage GetSecp256k1Params GetBN254Params.

(** [GetCurveParams[Base]]. *)
Definition GetCurveParams (pkg : Package) (Base : FieldParams) : Outcome CurveParams :=
  let t := Text16 (@Modulus Base) in
  if String.eqb t secp256k1_text then Ret (secp256k1Params pkg)
  else if String.eqb t bn254_text then Ret (bn254Params pkg)
  else Panic no_stored_parameters.

End Params.

Example Text16_samples :
  (Text16 0, Text16 255, Text16 (-255), Text16 4096) = ("0", "ff", "-ff", "1000").
Proof. reflexivity. Qed.

(** [Text16] read back: a string without sign is the text of one number
    only. *)
Lemma hex_of_N_inj_lit (n : N) (s : string) (d : Hexadecimal.uint) :
  HexadecimalString.NilZero.uint_of_string s = Some d ->
  d <> Hexadecimal.D0 Hexadecimal.Nil ->
  hex_of_N n = s -> n = N.of_hex_uint d.
Proof.
  intros Hs Hd Hn. unfold hex_of_N in Hn.
  apply (f_equal HexadecimalString.NilZero.uint_of_string) in Hn.
  rewrite Hs in Hn.
  destruct (HexadecimalString.NilZero.usu_gen (N.to_hex_uint n)) as [Hu|Hu];
    rewrite Hu in Hn; injection Hn as Hn.
  - rewrite <- Hn. symmetry. apply HexadecimalN.Unsigned.of_to.
  - by destruct Hd.
Qed.

Lemma Text16_eq_lit (z : Z) (s : string) (d : Hexadecimal.uint) :
  HexadecimalString.NilZero.uint_of_string s = Some d ->
  d <> Hexadecimal.D0 Hexadecimal.Nil ->
  String.get 0 s <> Some "-"%char ->
  Text16 z = s -> z = Z.of_N (N.of_hex_uint d).
Proof.
  intros Hs Hd Hsign Hz. unfold Text16 in Hz.
  destruct (Z.ltb_spec z 0) as [Hneg|Hpos].
  - subst s. by destruct Hsign.
  - apply (hex_of_N_inj_lit _ _ _ Hs Hd) in Hz.
    rewrite <- Hz. symmetry. by apply Z2N.id.
Qed.

Lemma Text16_secp256k1 (z : Z) : Text16 z = secp256k1_text <-> z = secp256k1_modulus.
Proof.
  split.
  - intros Hz.
    eapply (Text16_eq_lit z secp256k1_text) in Hz; [| vm_compute; reflexivity | done | done].
    rewrite Hz. vm_compute. reflexivity.
  - intros ->. vm_compute. reflexivity.
Qed.

Lemma Text16_bn254 (z : Z) : Text16 z = bn254_text <-> z = bn254_modulus.
Proof.
  split.
  - intros Hz.
    eapply (Text16_eq_lit z bn254_text) in Hz; [| vm_compute; reflexivity | done | done].
    rewrite Hz. vm_compute. reflexivity.
  - intros ->. vm_compute. reflexivity.
Qed.

Section ParamsFacts.
Variables (secp256k1_g1aff bn254_g1aff : Z * Z).
Variables (computeSecp256k1Table computeBN254Table : list (Z * Z)).

Let stored (pkg0 : Package) : Package :=
  init secp256k1_g1aff bn254_g1aff computeSecp256k1Table computeBN254Table pkg0.

(** C10. Once [init] has run, [GetCurveParams] returns the secp256k1
    parameter set when the modulus of [Base] is the secp256k1 base-field
    modulus, the BN254 parameter set when it is the BN254 base-field
    modulus, and panics with "no stored parameters" for every other
    modulus; so it returns exactly for these two moduli. *)
Theorem GetCurveParams_cases (pkg0 : Package) (Base : FieldParams) :
  (@Modulus Base = secp256k1_modulus ->
   GetCurveParams (stored pkg0) Base
   = Ret (GetSecp256k1Params secp256k1_g1aff computeSecp256k1Table)) /\
  (@Modulus Base = bn254_modulus ->
   GetCurveParams (stored pkg0) Base
   = Ret (GetBN254Params bn254_g1aff computeBN254Table)) /\
  (@Modulus Base <> secp256k1_modulus -> @Modulus Base <> bn254_modulus ->
   GetCurveParams (stored pkg0) Base = Panic no_stored_parameters) /\
  ((exists p, GetCurveParams (stored pkg0) Base = Ret p) <->
   @Modulus Base = secp256k1_modulus \/ @Modulus Base = bn254_modulus).
Proof.
  unfold GetCurveParams, stored, init. simpl.
  destruct (String.eqb_spec (Text16 (@Modulus Base)) secp256k1_text) as [Hs|Hs];
    [|destruct (String.eqb_spec (Text16 (@Modulus Base)) bn254_text) as [Hb|Hb]].
  - apply Text16_secp256k1 in Hs. rewrite Hs. repeat split; try done.
    + intros _. by left.
    + intros _. by eexists.
  - apply Text16_bn254 in Hb. rewrite Hb. repeat split; try done.
    + intros _. by right.
    + intros _. by eexists.
  - rewrite Text16_secp256k1 in Hs. rewrite Text16_bn254 in Hb.
    repeat split; try done.
    + intros [p Hp]. done.
    + intros [H|H]; done.
Qed.

End ParamsFacts.

(** Field parameter types to call it with. *)
Definition Secp256k1Fp : FieldParams :=
  {| NbLimbs := 4; BitsPerLimb := 64; IsPrime := true; Modulus := secp256k1_modulus |}.
Definition BN254Fp : FieldParams :=
  {| NbLimbs := 4; BitsPerLimb := 64; IsPrime := true; Modulus := bn254_modulus |}.
Definition Goldilocks : FieldParams :=
  {| NbLimbs := 1; BitsPerLimb := 64; IsPrime := true; Modulus := 2 ^ 64 - 2 ^ 32 + 1 |}.

Lemma GetCurveParams_cases_witness :
  GetCurveParams (init (55, 66) (1, 2) [(55, 66)] [(1, 2)] (mkPackage (mkCurveParams 0 0 0 0 []) (mkCurveParams 0 0 0 0 [])))
    Secp256k1Fp
  = Ret (mkCurveParams 0 7 55 66 [(55, 66)]) /\
  GetCurveParams (init (55, 66) (1, 2) [(55, 66)] [(1, 2)] (mkPackage (mkCurveParams 0 0 0 0 []) (mkCurveParams 0 0 0 0 [])))
    BN254Fp
  = Ret (mkCurveParams 0 3 1 2 [(1, 2)]) /\
  GetCurveParams (init (55, 66) (1, 2) [(55, 66)] [(1, 2)] (mkPackage (mkCurveParams 0 0 0 0 []) (mkCurveParams 0 0 0 0 [])))
    Goldilocks
  = Panic no_stored_parameters.
Proof.
  split; [|split].
  - apply (proj1 (GetCurveParams_cases (55, 66) (1, 2) [(55, 66)] [(1, 2)] _ Secp256k1Fp)).
    reflexivity.
  - apply (proj1 (proj2 (GetCurveParams_cases (55, 66) (1, 2) [(55, 66)] [(1, 2)] _ BN254Fp))).
    reflexivity.
  - apply (proj1 (proj2 (proj2 (GetCurveParams_cases (55, 66) (1, 2) [(55, 66)] [(1, 2)] _ Goldilocks))));
      vm_compute; discriminate.
Defined.

End SwEmulated.

(* ===================================================================== *)
(** ** Curve identifiers and constraint systems, as the packages below
       see them                                                           *)
(* ===================================================================== *)

Module Ecc.

(** [ecc.ID]: the identifiers the sources name, and all the others. *)
Inductive ID :=
| BN254
| BLS12_381
| BLS12_377
| BLS24_317
| BLS24_315
| OtherID (n : N).

#[global] Instance ID_eq_dec : EqDecision ID.
Proof. solve_decision. Defined.

Definition ID_to_N (c : ID) : N :=
  match c with
  | BN254 => 0
  | BLS12_381 => 1
  | BLS12_377 => 2
  | BLS24_317 => 3
  | BLS24_315 => 4
  | OtherID n => 5 + n
  end.

Definition ID_of_N (n : N) : ID :=
  match n with
  | 0 => BN254
  | 1 => BLS12_381
  | 2 => BLS12_377
  | 3 => BLS24_317
  | 4 => BLS24_315
  | _ => OtherID (n - 5)
  end%N.

Lemma ID_of_to_N (c : ID) : ID_of_N (ID_to_N c) = c.
Proof.
  destruct c as [| | | | |n]; try reflexivity.
  unfold ID_to_N, ID_of_N.
  destruct (5 + n)%N as [|p] eqn:E; [lia|].
  assert (Hn : n = (N.pos p - 5)%N) by lia.
  do 3 (destruct p as [p|p|]; try lia; try (by rewrite Hn)).
Qed.

#[global] Instance ID_countable : Countable ID :=
  inj_countable' ID_to_N ID_of_N ID_of_to_N.

End Ecc.

Module Constraint.

(** The concrete types behind a [constraint.ConstraintSystem]: one R1CS
    and one SparseR1CS type per curve package. *)
Inductive Kind := R1CS | SparseR1CS.

Record System := mkSystem {
  curve : Ecc.ID;
  kind : Kind;
  GetNbConstraints : Z;
  GetNbPublicVariables : Z
}.

(** The interface value: [None] is the nil interface. *)
Definition ConstraintSystem : Type := option System.

End Constraint.

(* ===================================================================== *)
(** ** backend/plonk: dispatch on the curve of the constraint system      *)
(* ===================================================================== *)

Module Plonk.
Import Go.

Section Dispatch.

(** The curve-typed keys and the reference string of [kzg_bn254]; a
    [kzg.SRS] interface value carries the curve of its concrete type. *)
Context {ProvingKey VerifyingKey SRSData : Type}.

Record SRS := mkSRS { srs_curve : Ecc.ID; srs_data : SRSData }.

(** [plonk_bn254.Setup]. *)
Variable plonk_bn254_Setup :
  Constraint.System -> SRSData -> Outcome (option ProvingKey * option VerifyingKey * error).

Definition unrecognized_curve : string := "unrecognized SparseR1CS curve type".
Definition interface_conversion : string :=
  "interface conversion: kzg.SRS is not *kzg.SRS of bn254".

(** [Setup]: a type switch on [ccs], then a type assertion on [kzgSRS]. *)
Definition Setup (ccs : Constraint.ConstraintSystem) (kzgSRS : SRS)
  : Outcome (option ProvingKey * option VerifyingKey * error) :=
  match ccs with
  | Some tccs =>
      match Constraint.curve tccs, Constraint.kind tccs with
      | Ecc.BN254, Constraint.SparseR1CS =>
          match srs_curve kzgSRS with
          | Ecc.BN254 => plonk_bn254_Setup tccs (srs_data kzgSRS)
          | _ => Panic interface_conversion
          end
      | _, _ => Panic unrecognized_curve
      end
  | None => Panic unrecognized_curve
  end.

(** C2. A constraint system over any field other than BN254 makes
    [Setup] panic with "unrecognized SparseR1CS curve type"; in
    particular it returns no triple, whatever its components. *)
Theorem Setup_unsupported_field_panics (tccs : Constraint.System) (kzgSRS : SRS) :
  Constraint.curve tccs <> Ecc.BN254 ->
  Setup (Some tccs) kzgSRS = Panic unrecognized_curve /\
  forall pk vk err, Setup (Some tccs) kzgSRS <> Ret (pk, vk, err).
Proof.
  intros Hne. assert (H : Setup (Some tccs) kzgSRS = Panic unrecognized_curve).
  { unfold Setup. destruct (Constraint.curve tccs); try reflexivity. by destruct Hne. }
  split; [exact H|]. intros pk vk err. by rewrite H.
Qed.

End Dispatch.

Lemma Setup_unsupported_field_panics_witness :
  Setup (fun _ (_ : unit) => Ret (Some tt, Some tt, None))
        (Some (Constraint.mkSystem Ecc.BLS12_381 Constraint.SparseR1CS 10 2))
        (mkSRS Ecc.BLS12_381 tt)
  = Panic unrecognized_curve.
Proof.
  apply (Setup_unsupported_field_panics (ProvingKey := unit) (VerifyingKey := unit)).
  discriminate.
Defined.

Example Setup_bn254_delegates :
  Setup (fun _ (_ : unit) => Ret (Some tt, Some tt, None))
        (Some (Constraint.mkSystem Ecc.BN254 Constraint.SparseR1CS 10 2))
        (mkSRS Ecc.BN254 tt)
  = Ret (Some tt, Some tt, None).
Proof. reflexivity. Qed.

End Plonk.

(* ===================================================================== *)
(** ** test: the cached KZG reference strings                             *)
(* ===================================================================== *)

Module TestKZG.
Import Go.

Definition srsCachedSize : Z := Z.shiftl 1 14 + 3.

Section SRS.

(** What a curve-typed SRS holds, [ecc.NextPowerOfTwo], the scalar field
    of a curve and the constructors [kzg_<curve>.NewSRS(size, alpha)] are
    gnark-crypto's. *)
Context {SRSData : Type}.
Variable NextPowerOfTwo : Z -> Z.
Variable ScalarField : Ecc.ID -> Z.
Variable kzg_NewSRS : Ecc.ID -> Z -> Z -> SRSData + string.

(** The package variables and their surroundings.  An SRS is handed
    around by pointer: [objects] holds the SRS allocated so far and an
    SRS value is the index of its object.  [entropy] is what
    [rand.Reader] will deliver, [drawn] how much of it has been read.
    Calls do not overlap in this embedding, so the mutex of the cache is
    free whenever it is acquired and is not represented. *)
Record World := mkWorld {
  srsCache : gmap Ecc.ID nat;
  objects : list SRSData;
  entropy : nat -> option Z;
  drawn : nat
}.

(** A [kzg.SRS] interface value: [None] is nil. *)
Definition SRS : Type := option nat.

Definition rand_failure : string := "crypto/rand: read failed".
Definition rand_bad_max : string := "crypto/rand: argument to Int is <= 0".
Definition unrecognized_curve : string := "unrecognized R1CS curve type".
Definition nil_dereference : string :=
  "invalid memory address or nil pointer dereference".

(** [rand.Int(rand.Reader, max)]: a value below [max], or an error when
    the reader fails. *)
Definition rand_Int (max : Z) (w : World) : Outcome (Z + string) * World :=
  if max <=? 0 then (Panic rand_bad_max, w)
  else
    let w' := mkWorld (srsCache w) (objects w) (entropy w) (Datatypes.S (drawn w)) in
    match entropy w (drawn w) with
    | Some r => (Ret (inl (r mod max)), w')
    | None => (Ret (inr rand_failure), w')
    end.

(** The curves [newKZGSRS] has a case for. *)
Definition has_kzg (curve : Ecc.ID) : bool :=
  match curve with
  | Ecc.BN254 | Ecc.BLS12_381 | Ecc.BLS12_377 | Ecc.BLS24_317 | Ecc.BLS24_315 => true
  | Ecc.OtherID _ => false
  end.

(** Returning the result of [kzg_<curve>.NewSRS]: a new object on
    success. *)
Definition return_NewSRS (curve : Ecc.ID) (kzgSize alpha : Z) (w : World)
  : Outcome (SRS * error) * World :=
  match kzg_NewSRS curve kzgSize alpha with
  | inl data =>
      (Ret (Some (length (objects w)), None),
       mkWorld (srsCache w) (objects w ++ [data]) (entropy w) (drawn w))
  | inr err => (Ret (None, Some err), w)
  end.

Definition newKZGSRS (curve : Ecc.ID) (kzgSize : Z) (w : World)
  : Outcome (SRS * error) * World :=
  match rand_Int (ScalarField curve) w with
  | (Panic msg, w1) => (Panic msg, w1)
  | (Ret (inr err), w1) => (Ret (None, Some err), w1)
  | (Ret (inl alpha), w1) =>
      match curve with
      | Ecc.BN254 => return_NewSRS Ecc.BN254 kzgSize alpha w1
      | Ecc.BLS12_381 => return_NewSRS Ecc.BLS12_381 kzgSize alpha w1
      | Ecc.BLS12_377 => return_NewSRS Ecc.BLS12_377 kzgSize alpha w1
      | Ecc.BLS24_317 => return_NewSRS Ecc.BLS24_317 kzgSize alpha w1
      | Ecc.BLS24_315 => return_NewSRS Ecc.BLS24_315 kzgSize alpha w1
      | Ecc.OtherID _ => (Panic unrecognized_curve, w1)
      end
  end.

(** [utils.FieldToCurve(ccs.Field())]: the curve of the system's field. *)
Definition curveID_of (ccs : Constraint.System) : Ecc.ID := Constraint.curve ccs.

Definition getCachedSRS (ccs : Constraint.System) (w : World)
  : Outcome (SRS * error) * World :=
  let curveID := curveID_of ccs in
  match srsCache w !! curveID with
  | Some srs => (Ret (Some srs, None), w)
  | None =>
      match newKZGSRS curveID srsCachedSize w with
      | (Panic msg, w1) => (Panic msg, w1)
      | (Ret (_, Some err), w1) => (Ret (None, Some err), w1)
      | (Ret (None, None), w1) => (Ret (None, None), w1)
      | (Ret (Some srs, None), w1) =>
          (Ret (Some srs, None),
           mkWorld (<[curveID := srs]> (srsCache w1)) (objects w1) (entropy w1) (drawn w1))
      end
  end.

(** The size [NewKZGSRS] asks for. *)
Definition kzgSize_of (ccs : Constraint.System) : Z :=
  let nbConstraints := Constraint.GetNbConstraints ccs in
  let sizeSystem := nbConstraints + Constraint.GetNbPublicVariables ccs in
  add64 (NextPowerOfTwo (to_uint64 sizeSystem)) 3.

Definition NewKZGSRS (ccs : Constraint.ConstraintSystem) (w : World)
  : Outcome (SRS * error) * World :=
  match ccs with
  | None => (Panic nil_dereference, w)
  | Some ccs =>
      let kzgSize := kzgSize_of ccs in
      if kzgSize <=? srsCachedSize then getCachedSRS ccs w
      else newKZGSRS (curveID_of ccs) kzgSize w
  end.

(** The object an SRS value points to. *)
Definition srs_object (w : World) (srs : SRS) : option SRSData :=
  match srs with
  | Some a => objects w !! a
  | None => None
  end.

(* --------------------------------------------------------------------- *)
(** *** Properties of the cache                                           *)
(* --------------------------------------------------------------------- *)

(** [generates curve size w r data]: [rand.Reader] delivers [r] next and
    the constructor of [curve] builds [data] of [size] elements from the
    scalar drawn from it. *)
Definition generates (curve : Ecc.ID) (size : Z) (w : World) (r : Z) (data : SRSData) : Prop :=
  has_kzg curve = true /\
  0 < ScalarField curve /\
  entropy w (drawn w) = Some r /\
  kzg_NewSRS curve size (r mod ScalarField curve) = inl data.

Lemma newKZGSRS_generates curve size w r data :
  generates curve size w r data ->
  newKZGSRS curve size w
  = (Ret (Some (length (objects w)), None),
     mkWorld (srsCache w) (objects w ++ [data]) (entropy w) (Datatypes.S (drawn w))).
Proof.
  intros (Hk & Hf & He & Hn). unfold newKZGSRS, rand_Int.
  destruct (Z.leb_spec (ScalarField curve) 0) as [Hle|_]; [lia|].
  rewrite He.
  destruct curve; try discriminate Hk; unfold return_NewSRS; by rewrite Hn.
Qed.

(** [newKZGSRS] neither reads nor writes the cache. *)
Lemma newKZGSRS_ignores_cache curve size w cache :
  newKZGSRS curve size (mkWorld cache (objects w) (entropy w) (drawn w))
  = let '(res, w') := newKZGSRS curve size w in
    (res, mkWorld cache (objects w') (entropy w') (drawn w')).
Proof.
  unfold newKZGSRS, rand_Int. simpl.
  destruct (ScalarField curve <=? 0); [reflexivity|].
  destruct (entropy w (drawn w)) as [r|]; [|reflexivity].
  destruct curve; try reflexivity; unfold return_NewSRS; simpl;
    by destruct (kzg_NewSRS _ size _).
Qed.

Lemma newKZGSRS_keeps_cache curve size w :
  srsCache (snd (newKZGSRS curve size w)) = srsCache w.
Proof.
  unfold newKZGSRS, rand_Int.
  destruct (ScalarField curve <=? 0); [reflexivity|].
  destruct (entropy w (drawn w)) as [r|]; [|reflexivity].
  destruct curve; try reflexivity; unfold return_NewSRS;
    by destruct (kzg_NewSRS _ size _).
Qed.

Lemma srsCachedSize_value : srsCachedSize = 2 ^ 14 + 3.
Proof. reflexivity. Qed.

(** C5. The size [NewKZGSRS] works with is
    [NextPowerOfTwo(constraints + public variables) + 3] in uint64
    arithmetic.  When it is at most [srsCachedSize = 2^14 + 3] the call
    is answered by the cache of the system's curve: a cached SRS is
    returned as it is, and on a miss the SRS generated, cached and
    returned has [srsCachedSize] elements, not the size asked for.  When
    it is larger, the call is [newKZGSRS] at exactly that size: the
    answer does not depend on the cache and the cache is left as it
    was. *)
Theorem NewKZGSRS_size_and_cache (ccs : Constraint.System) (w : World) :
  let curveID := Constraint.curve ccs in
  let kzgSize :=
    add64 (NextPowerOfTwo
             (to_uint64 (Constraint.GetNbConstraints ccs + Constraint.GetNbPublicVariables ccs))) 3 in
  (kzgSize <= 2 ^ 14 + 3 ->
     (forall srs, srsCache w !! curveID = Some srs ->
        NewKZGSRS (Some ccs) w = (Ret (Some srs, None), w)) /\
     (srsCache w !! curveID = None ->
        NewKZGSRS (Some ccs) w
        = match newKZGSRS curveID (2 ^ 14 + 3) w with
          | (Ret (Some srs, None), w1) =>
              (Ret (Some srs, None),
               mkWorld (<[curveID := srs]> (srsCache w1)) (objects w1) (entropy w1) (drawn w1))
          | (Ret (_, Some err), w1) => (Ret (None, Some err), w1)
          | other => other
          end) /\
     (srsCache w !! curveID = None ->
      forall r data, generates curveID (2 ^ 14 + 3) w r data ->
        NewKZGSRS (Some ccs) w
        = (Ret (Some (length (objects w)), None),
           mkWorld (<[curveID := length (objects w)]> (srsCache w))
                   (objects w ++ [data]) (entropy w) (Datatypes.S (drawn w))))) /\
  (2 ^ 14 + 3 < kzgSize ->
     NewKZGSRS (Some ccs) w = newKZGSRS curveID kzgSize w /\
     srsCache (snd (NewKZGSRS (Some ccs) w)) = srsCache w /\
     (forall cache,
        fst (NewKZGSRS (Some ccs) (mkWorld cache (objects w) (entropy w) (drawn w)))
        = fst (NewKZGSRS (Some ccs) w)) /\
     (forall r data, generates curveID kzgSize w r data ->
        NewKZGSRS (Some ccs) w
        = (Ret (Some (length (objects w)), None),
           mkWorld (srsCache w) (objects w ++ [data]) (entropy w) (Datatypes.S (drawn w))))).
Proof.
  intros curveID kzgSize. rewrite <- srsCachedSize_value.
  assert (Hsz : kzgSize_of ccs = kzgSize) by reflexivity.
  split.
  - intros Hle. unfold NewKZGSRS. rewrite Hsz.
    destruct (Z.leb_spec kzgSize srsCachedSize) as [_|Hgt]; [|lia].
    unfold getCachedSRS, curveID_of. fold curveID.
    split; [|split].
    + intros srs Hhit. by rewrite Hhit.
    + intros Hmiss. rewrite Hmiss.
      destruct (newKZGSRS curveID srsCachedSize w) as [[[[a|] [e|]]|msg] w1]; reflexivity.
    + intros Hmiss r data Hgen. rewrite Hmiss.
      by rewrite (newKZGSRS_generates _ _ _ _ _ Hgen).
  - intros Hgt.
    assert (Hrun : forall w0, NewKZGSRS (Some ccs) w0 = newKZGSRS curveID kzgSize w0).
    { intros w0. unfold NewKZGSRS. rewrite Hsz.
      destruct (Z.leb_spec kzgSize srsCachedSize) as [Hle|_]; [lia|reflexivity]. }
    split; [apply Hrun|]. split; [|split].
    + rewrite Hrun. apply newKZGSRS_keeps_cache.
    + intros cache. rewrite !Hrun, newKZGSRS_ignores_cache.
      by destruct (newKZGSRS curveID kzgSize w).
    + intros r data Hgen. rewrite Hrun. exact (newKZGSRS_generates _ _ _ _ _ Hgen).
Qed.

(** C6. Two calls in a row over one curve.  Below the threshold, once a
    call has returned an SRS, the next call returns that same SRS and
    changes nothing (it draws no randomness and allocates nothing); a
    first call that has to generate the entry returns it and stores it.
    Above the threshold, two calls that can each generate return two
    different SRS, each built from its own draw of randomness, and the
    cache is the same before and after. *)
Theorem NewKZGSRS_twice (ccs ccs' : Constraint.System) (w : World) :
  Constraint.curve ccs' = Constraint.curve ccs ->
  (kzgSize_of ccs <= srsCachedSize -> kzgSize_of ccs' <= srsCachedSize ->
     (forall srs w1,
        NewKZGSRS (Some ccs) w = (Ret (Some srs, None), w1) ->
        NewKZGSRS (Some ccs') w1 = (Ret (Some srs, None), w1)) /\
     (srsCache w !! Constraint.curve ccs = None ->
      forall r data, generates (Constraint.curve ccs) srsCachedSize w r data ->
      exists w1,
        NewKZGSRS (Some ccs) w = (Ret (Some (length (objects w)), None), w1) /\
        srsCache w1 !! Constraint.curve ccs = Some (length (objects w)) /\
        srs_object w1 (Some (length (objects w))) = Some data /\
        NewKZGSRS (Some ccs') w1 = (Ret (Some (length (objects w)), None), w1))) /\
  (srsCachedSize < kzgSize_of ccs -> srsCachedSize < kzgSize_of ccs' ->
     forall r1 data1 r2 data2,
       generates (Constraint.curve ccs) (kzgSize_of ccs) w r1 data1 ->
       generates (Constraint.curve ccs') (kzgSize_of ccs')
         (snd (NewKZGSRS (Some ccs) w)) r2 data2 ->
       exists srs1 srs2 w1 w2,
         NewKZGSRS (Some ccs) w = (Ret (Some srs1, None), w1) /\
         NewKZGSRS (Some ccs') w1 = (Ret (Some srs2, None), w2) /\
         srs1 <> srs2 /\
         srs_object w2 (Some srs1) = Some data1 /\
         srs_object w2 (Some srs2) = Some data2 /\
         entropy w (drawn w) = Some r1 /\
         entropy w (Datatypes.S (drawn w)) = Some r2 /\
         drawn w2 = Datatypes.S (Datatypes.S (drawn w)) /\
         srsCache w2 = srsCache w).
Proof.
  intros Hcurve. split.
  - intros Hle Hle'.
    assert (Hhit : forall srs w1,
      srsCache w1 !! Constraint.curve ccs = Some srs ->
      NewKZGSRS (Some ccs') w1 = (Ret (Some srs, None), w1)).
    { intros srs w1 Hin. unfold NewKZGSRS.
      destruct (Z.leb_spec (kzgSize_of ccs') srsCachedSize) as [_|Hgt]; [|lia].
      unfold getCachedSRS, curveID_of. by rewrite Hcurve, Hin. }
    split.
    + intros srs w1 Hrun. apply Hhit.
      unfold NewKZGSRS in Hrun.
      destruct (Z.leb_spec (kzgSize_of ccs) srsCachedSize) as [_|Hgt]; [|lia].
      unfold getCachedSRS, curveID_of in Hrun.
      destruct (srsCache w !! Constraint.curve ccs) as [a|] eqn:Hlook.
      * injection Hrun as -> ->. exact Hlook.
      * destruct (newKZGSRS (Constraint.curve ccs) srsCachedSize w)
          as [[[[a|] [e|]]|msg] w0]; try discriminate Hrun.
        injection Hrun as -> <-. simpl. apply lookup_insert_eq.
    + intros Hmiss r data Hgen.
      eexists. split; [|split; [|split]].
      * unfold NewKZGSRS.
        destruct (Z.leb_spec (kzgSize_of ccs) srsCachedSize) as [_|Hgt]; [|lia].
        unfold getCachedSRS, curveID_of. rewrite Hmiss.
        rewrite (newKZGSRS_generates _ _ _ _ _ Hgen). reflexivity.
      * simpl. apply lookup_insert_eq.
      * simpl. rewrite lookup_app_r by lia. by rewrite Nat.sub_diag.
      * apply Hhit. simpl. apply lookup_insert_eq.
  - intros Hgt Hgt' r1 data1 r2 data2 Hgen1 Hgen2.
    assert (Hrun : forall c w0, srsCachedSize < kzgSize_of c ->
      NewKZGSRS (Some c) w0 = newKZGSRS (Constraint.curve c) (kzgSize_of c) w0).
    { intros c w0 Hc. unfold NewKZGSRS.
      destruct (Z.leb_spec (kzgSize_of c) srsCachedSize) as [Hle|_]; [lia|reflexivity]. }
    rewrite (Hrun ccs w Hgt), (newKZGSRS_generates _ _ _ _ _ Hgen1) in Hgen2.
    simpl in Hgen2.
    rewrite (Hrun ccs w Hgt), (newKZGSRS_generates _ _ _ _ _ Hgen1).
    eexists _, _, _, _. split; [reflexivity|].
    rewrite (Hrun ccs' _ Hgt'), (newKZGSRS_generates _ _ _ _ _ Hgen2).
    split; [reflexivity|].
    destruct Hgen1 as (_ & _ & He1 & _). destruct Hgen2 as (_ & _ & He2 & _).
    simpl in *. rewrite length_app. simpl. repeat split; try done.
    + lia.
    + rewrite lookup_app_l by (rewrite length_app; simpl; lia).
      rewrite lookup_app_r by lia. by rewrite Nat.sub_diag.
    + rewrite lookup_app_r by (rewrite length_app; simpl; lia).
      rewrite length_app. simpl.
      by replace (length (objects w) + 1 - (length (objects w) + 1))%nat with 0%nat by lia.
Qed.

End SRS.

(* --------------------------------------------------------------------- *)
(** *** Concrete runs                                                     *)
(* --------------------------------------------------------------------- *)

(** Stand-ins for gnark-crypto: the next power of two, one scalar field
    for all curves, and reference strings described by curve, size and
    scalar, refused below two elements. *)
Module Demo.

Definition NextPowerOfTwo (n : Z) : Z := if n =? 0 then 1 else 2 ^ Z.log2_up n.

Definition ScalarField (_ : Ecc.ID) : Z :=
  21888242871839275222246405745257275088548364400416034343698204186575808495617.

Definition NewSRS (curve : Ecc.ID) (size alpha : Z) : (Ecc.ID * Z * Z) + string :=
  if size <? 2 then inr "minimum srs size is 2" else inl (curve, size, alpha).

Definition w0 : @World (Ecc.ID * Z * Z) :=
  mkWorld ∅ [] (fun n => Some (Z.of_nat n * 1000003 + 17)) 0.

Definition small : Constraint.System :=
  Constraint.mkSystem Ecc.BN254 Constraint.SparseR1CS 10 2.
Definition small' : Constraint.System :=
  Constraint.mkSystem Ecc.BN254 Constraint.SparseR1CS 100 3.
Definition large : Constraint.System :=
  Constraint.mkSystem Ecc.BN254 Constraint.SparseR1CS 20000 2.

Definition run := NewKZGSRS NextPowerOfTwo ScalarField NewSRS.

End Demo.

Example kzgSize_of_demo :
  (kzgSize_of Demo.NextPowerOfTwo Demo.small, kzgSize_of Demo.NextPowerOfTwo Demo.large,
   srsCachedSize) = (19, 32771, 16387).
Proof. vm_compute. reflexivity. Qed.

Lemma NewKZGSRS_size_and_cache_witness :
  Demo.run (Some Demo.small) Demo.w0
  = (Ret (Some 0%nat, None),
     mkWorld {[ Ecc.BN254 := 0%nat ]} [(Ecc.BN254, 16387, 17)] (entropy Demo.w0) 1) /\
  Demo.run (Some Demo.large) Demo.w0
  = (Ret (Some 0%nat, None),
     mkWorld ∅ [(Ecc.BN254, 32771, 17)] (entropy Demo.w0) 1).
Proof.
  pose proof (NewKZGSRS_size_and_cache Demo.NextPowerOfTwo Demo.ScalarField Demo.NewSRS
                Demo.small Demo.w0) as [Hsmall _].
  pose proof (NewKZGSRS_size_and_cache Demo.NextPowerOfTwo Demo.ScalarField Demo.NewSRS
                Demo.large Demo.w0) as [_ Hlarge].
  split.
  - destruct Hsmall as (_ & _ & Hmiss); [by vm_compute|].
    apply (Hmiss eq_refl 17 (Ecc.BN254, 16387, 17)).
    repeat split.
  - destruct Hlarge as (_ & _ & _ & Hgen); [by vm_compute|].
    apply (Hgen 17 (Ecc.BN254, 32771, 17)).
    repeat split.
Defined.

Lemma NewKZGSRS_twice_witness :
  (exists w1,
     Demo.run (Some Demo.small) Demo.w0 = (Ret (Some 0%nat, None), w1) /\
     Demo.run (Some Demo.small') w1 = (Ret (Some 0%nat, None), w1)) /\
  (exists srs1 srs2 w1 w2,
     Demo.run (Some Demo.large) Demo.w0 = (Ret (Some srs1, None), w1) /\
     Demo.run (Some Demo.large) w1 = (Ret (Some srs2, None), w2) /\
     srs1 <> srs2 /\
     srs_object w2 (Some srs1) = Some (Ecc.BN254, 32771, 17) /\
     srs_object w2 (Some srs2) = Some (Ecc.BN254, 32771, 1000020)).
Proof.
  split.
  - destruct (NewKZGSRS_twice Demo.NextPowerOfTwo Demo.ScalarField Demo.NewSRS
                Demo.small Demo.small' Demo.w0 eq_refl) as [Hsmall _].
    destruct Hsmall as [_ Hmiss]; [by vm_compute|by vm_compute|].
    destruct (Hmiss eq_refl 17 (Ecc.BN254, 16387, 17)) as (w1 & H1 & _ & _ & H2).
    { repeat split. }
    exists w1. split; assumption.
  - destruct (NewKZGSRS_twice Demo.NextPowerOfTwo Demo.ScalarField Demo.NewSRS
                Demo.large Demo.large Demo.w0 eq_refl) as [_ Hlarge].
    destruct (Hlarge ltac:(by vm_compute) ltac:(by vm_compute)
                17 (Ecc.BN254, 32771, 17) 1000020 (Ecc.BN254, 32771, 1000020))
      as (srs1 & srs2 & w1 & w2 & H1 & H2 & Hne & Ho1 & Ho2 & _).
    + repeat split.
    + repeat split.
    + exists srs1, srs2, w1, w2. repeat split; assumption.
Defined.

End TestKZG.

(* ===================================================================== *)
(** ** test: the assertion helper ([Assert])                              *)
(* ===================================================================== *)

Module TestEngine.

(** [backend.ID]. *)
Inductive BackendID := GROTH16 | PLONK | PLONKFRI | OtherBackend (n : N).

(** [frontend.NewBuilder]: the two builders [compile] chooses from. *)
Inductive NewBuilder := r1cs_NewBuilder | scs_NewBuilder.

(** Error values: the three variables of the package, any other error
    made from a text, and [fmt.Errorf] with a wrapped error. *)
Inductive Err :=
| ErrCompilationNotDeterministic
| ErrInvalidWitnessSolvedCS
| ErrInvalidWitnessVerified
| ErrorString (text : string)
| Wrap (text : string) (inner : Err).

#[global] Instance Err_eq_dec : EqDecision Err.
Proof. solve_decision. Defined.

(** [err.Error()]. *)
Definition Error (e : Err) : string :=
  match e with
  | ErrCompilationNotDeterministic => "compilation is not deterministic"
  | ErrInvalidWitnessSolvedCS => "invalid witness solved the constraint system"
  | ErrInvalidWitnessVerified => "invalid witness resulted in a valid proof"
  | ErrorString text => text
  | Wrap text _ => text
  end.

(** [errors.Is]. *)
Fixpoint errors_Is (e target : Err) : bool :=
  if bool_decide (e = target) then true
  else match e with
       | Wrap _ inner => errors_Is inner target
       | _ => false
       end.

Definition error : Type := option Err.

Definition nl : string := String (ascii_of_nat 10) "".

(** What the package takes from the rest of gnark.  Compilation and the
    fillers that draw random witnesses act on a [World]; reflection,
    parsing, serialisation and the two solvers are functions of their
    arguments. *)
Class Env := {
  World : Type;
  Circuit : Type;
  CCS : Type;
  Witness : Type;
  Schema : Type;
  CompileOption : Type;
  SolverOption : Type;
  (** [reflect.DeepEqual] on compiled systems *)
  CCS_eq_dec :: EqDecision CCS;
  (** [reflect.ValueOf(c).Kind() == reflect.Ptr], [.Pointer()],
      [reflect.TypeOf(c).String()] *)
  is_Ptr : Circuit -> bool;
  Pointer : Circuit -> Z;
  TypeOf_String : Circuit -> string;
  (** the numbers and names of curve and backend identifiers *)
  curve_number : Ecc.ID -> Z;
  backend_number : BackendID -> Z;
  curve_String : Ecc.ID -> string;
  backend_String : BackendID -> string;
  (** [frontend.Compile(curveID.ScalarField(), newBuilder, circuit, opts...)] *)
  frontend_Compile :
    Ecc.ID -> NewBuilder -> Circuit -> list CompileOption -> World -> (CCS + string) * World;
  (** the test engine's [IsSolved]; the flag is
      [SetAllVariablesAsConstants()] *)
  IsSolved : Circuit -> Circuit -> Ecc.ID -> bool -> option string;
  (** [frontend.NewWitness], [frontend.NewSchema], [schema.New],
      [witness.ToJSON] *)
  frontend_NewWitness : Circuit -> Ecc.ID -> Witness + string;
  frontend_NewSchema : Circuit -> Schema + string;
  schema_New : Circuit -> Schema + string;
  ToJSON : Witness -> Schema -> string + string;
  (** [ccs.IsSolved(witness, opts...)] *)
  ccs_IsSolved : CCS -> Witness -> list SolverOption -> option string
}.

(** A test step returns, fails the test ([FailNow] stops the test's
    goroutine) or panics. *)
Inductive TOutcome (A : Type) :=
| TRet (a : A)
| TFailNow (msg : string)
| TPanic (msg : string).
Arguments TRet {A} a.
Arguments TFailNow {A} msg.
Arguments TPanic {A} msg.

Section Assert.
Context `{env : Env}.

(** The fields of [testingConfig] used here. *)
Record testingConfig := mkTestingConfig {
  compileOpts : list CompileOption;
  solverOpts : list SolverOption
}.

(** An argument of [assert.Log]. *)
Inductive LogArg := LStr (s : string) | LErr (e : option string).

(** The compilation cache (one map, shared by every [Assert] made by
    [Run]), what the test has logged, and the world. *)
Record TState := mkTState {
  compiled : gmap string CCS;
  logged : list (list LogArg);
  world : World
}.

Definition T (A : Type) : Type := TState -> TOutcome A * TState.

Definition ret {A} (a : A) : T A := fun st => (TRet a, st).
Definition bind {A B} (c : T A) (k : A -> T B) : T B :=
  fun st =>
    match c st with
    | (TRet a, st') => k a st'
    | (TFailNow msg, st') => (TFailNow msg, st')
    | (TPanic msg, st') => (TPanic msg, st')
    end.
Definition FailNow {A} (msg : string) : T A := fun st => (TFailNow msg, st).
Definition panic {A} (msg : string) : T A := fun st => (TPanic msg, st).
Definition Log (args : list LogArg) : T unit :=
  fun st => (TRet tt, mkTState (compiled st) (logged st ++ [args]) (world st)).

Notation "'let*' x ':=' c 'in' k" := (bind c (fun x => k))
  (at level 10, x pattern, c at level 100, k at level 200).
Notation "c ';;' k" := (bind c (fun _ => k))
  (at level 100, k at level 200, right associativity).

(** [assert.NoError(err, msg)]. *)
Definition NoError {A} (r : A + string) (msg : string) : T A :=
  match r with
  | inl a => ret a
  | inr _ => FailNow msg
  end.

Definition not_pointer : string :=
  "frontend.Circuit methods must be defined on pointer receiver".

Definition getCircuitAddr (circuit : Circuit) : Z * error :=
  if is_Ptr circuit then (Pointer circuit, None)
  else (0, Some (ErrorString not_pointer)).

Definition cache_key (circuit : Circuit) (curveID : Ecc.ID) (backendID : BackendID) (addr : Z)
  : string :=
  pretty (curve_number curveID) ++ pretty (backend_number backendID)
    ++ TypeOf_String circuit ++ pretty addr.

Definition newBuilder_of (backendID : BackendID) : option NewBuilder :=
  match backendID with
  | GROTH16 => Some r1cs_NewBuilder
  | PLONK => Some scs_NewBuilder
  | PLONKFRI => Some scs_NewBuilder
  | OtherBackend _ => None
  end.

Definition set_world (st : TState) (w : World) : TState :=
  mkTState (compiled st) (logged st) w.

(** [compile]. *)
Definition compile (circuit : Circuit) (curveID : Ecc.ID) (backendID : BackendID)
    (opts : list CompileOption) : T (option CCS * error) :=
  fun st =>
    match getCircuitAddr circuit with
    | (_, Some err) => (TRet (None, Some err), st)
    | (addr, None) =>
        let key := cache_key circuit curveID backendID addr in
        match compiled st !! key with
        | Some ccs => (TRet (Some ccs, None), st)
        | None =>
            match newBuilder_of backendID with
            | None => (TPanic "not implemented", st)
            | Some newBuilder =>
                match frontend_Compile curveID newBuilder circuit opts (world st) with
                | (inr err, w1) => (TRet (None, Some (ErrorString err)), set_world st w1)
                | (inl ccs, w1) =>
                    match frontend_Compile curveID newBuilder circuit opts w1 with
                    | (inr err, w2) =>
                        (TRet (None,
                               Some (Wrap (Error ErrCompilationNotDeterministic ++ ": " ++ err)
                                          ErrCompilationNotDeterministic)),
                         set_world st w2)
                    | (inl _ccs, w2) =>
                        if bool_decide (ccs = _ccs) then
                          (TRet (Some ccs, None),
                           mkTState (<[key := ccs]> (compiled st)) (logged st) w2)
                        else
                          (TRet (None, Some ErrCompilationNotDeterministic), set_world st w2)
                    end
                end
            end
        end
    end.

(** [lazySchema(circuit)()]. *)
Definition lazySchema (circuit : Circuit) : T Schema :=
  match schema_New circuit with
  | inl s => ret s
  | inr err => panic ("couldn't parse schema from circuit: " ++ err)
  end.

Definition witness_json (w : Witness) (s : Schema) : string :=
  match ToJSON w s with
  | inl bjson => bjson
  | inr err => err
  end.

(** [checkError]: the error must be nil. *)
Definition checkError (err : error) (backendID : BackendID) (curve : Ecc.ID)
    (w : Witness) (circuit : Circuit) : T unit :=
  match err with
  | None => ret tt
  | Some err =>
      let e := backend_String backendID ++ "(" ++ curve_String curve ++ "): " ++ Error err in
      let* s := lazySchema circuit in
      FailNow (e ++ nl ++ "witness:" ++ witness_json w s)
  end.

(** [mustError]: the error must not be nil. *)
Definition mustError (err : error) (backendID : BackendID) (curve : Ecc.ID)
    (w : Witness) (circuit : Circuit) : T unit :=
  match err with
  | Some _ => ret tt
  | None =>
      let* s := lazySchema circuit in
      FailNow ("did not error (but should have) " ++ backend_String backendID
               ++ "(" ++ curve_String curve ++ ")" ++ nl ++ "witness:" ++ witness_json w s)
  end.

Definition foreign (e : option string) : error :=
  match e with
  | Some text => Some (ErrorString text)
  | None => None
  end.

Definition nil_dereference : string :=
  "invalid memory address or nil pointer dereference".

(** [ccs.IsSolved(w, opts...)] on what [compile] returned. *)
Definition call_IsSolved (ccs : option CCS) (w : Witness) (opts : list SolverOption) : T error :=
  match ccs with
  | Some ccs => ret (foreign (ccs_IsSolved ccs w opts))
  | None => panic nil_dereference
  end.

Definition solvingSucceeded (circuit validAssignment : Circuit) (b : BackendID)
    (curve : Ecc.ID) (opt : testingConfig) : T unit :=
  let* validWitness :=
    NoError (frontend_NewWitness validAssignment curve) "can't parse valid assignment" in
  let* (ccs, err) := compile circuit curve b (compileOpts opt) in
  checkError err b curve validWitness circuit ;;
  checkError (foreign (IsSolved circuit validAssignment curve false)) b curve validWitness circuit ;;
  let* err := call_IsSolved ccs validWitness (solverOpts opt) in
  checkError err b curve validWitness circuit.

Definition solvingFailed (circuit invalidAssignment : Circuit) (b : BackendID)
    (curve : Ecc.ID) (opt : testingConfig) : T unit :=
  let* invalidWitness :=
    NoError (frontend_NewWitness invalidAssignment curve) "can't parse invalid assignment" in
  let* (ccs, err) := compile circuit curve b (compileOpts opt) in
  checkError err b curve invalidWitness circuit ;;
  mustError (foreign (IsSolved circuit invalidAssignment curve false)) b curve invalidWitness circuit ;;
  let* err := call_IsSolved ccs invalidWitness (solverOpts opt) in
  mustError err b curve invalidWitness circuit.

(** A [filler] overwrites the witness it is given. *)
Definition filler : Type := Circuit -> Ecc.ID -> World -> Circuit * World.

Definition run_filler (f : filler) (w : Circuit) (curve : Ecc.ID) : T Circuit :=
  fun st => let '(w', wd) := f w curve (world st) in (TRet w', set_world st wd).

Definition or_panic {A} (r : A + string) : T A :=
  match r with
  | inl a => ret a
  | inr err => panic err
  end.

Definition mismatch : string :=
  "solving circuit with values as constants vs non-constants mismatched result".

Definition is_nil (e : option string) : bool :=
  match e with None => true | Some _ => false end.

(** [fuzzer]. *)
Definition fuzzer (fill : filler) (circuit w : Circuit) (b : BackendID)
    (curve : Ecc.ID) (opt : testingConfig) : T Z :=
  let* w := run_filler fill w curve in
  let errVars := IsSolved circuit w curve false in
  let errConsts := IsSolved circuit w curve true in
  (if negb (Bool.eqb (is_nil errVars) (is_nil errConsts)) then
     let* wit := or_panic (frontend_NewWitness w curve) in
     let* s := or_panic (frontend_NewSchema circuit) in
     let* bb := or_panic (ToJSON wit s) in
     Log [LStr "errVars"; LErr errVars] ;;
     Log [LStr "errConsts"; LErr errConsts] ;;
     Log [LStr "fuzzer witness"; LStr bb] ;;
     FailNow mismatch
   else ret tt) ;;
  if is_nil errVars && is_nil errConsts then
    solvingSucceeded circuit w b curve opt ;;
    ret 1
  else
    solvingFailed circuit w b curve opt ;;
    ret 0.

(* --------------------------------------------------------------------- *)
(** *** Properties of [compile]                                           *)
(* --------------------------------------------------------------------- *)

(** C4 (as the code has it). For a circuit given by pointer, a backend
    with a builder and a key the cache does not hold, [compile] compiles
    the circuit and, if that succeeds, compiles it again.  A failure of
    the first compilation is returned as that very error, which is not
    the non-determinism fault.  A failure of the second compilation is
    returned wrapped in [ErrCompilationNotDeterministic]; two
    compilations that differ return [ErrCompilationNotDeterministic]
    itself.  In these cases nothing is cached.  Two equal results are
    cached under the key and returned. *)
Theorem compile_determinism_check circuit curveID backendID opts st newBuilder :
  is_Ptr circuit = true ->
  compiled st !! cache_key circuit curveID backendID (Pointer circuit) = None ->
  newBuilder_of backendID = Some newBuilder ->
  let first := frontend_Compile curveID newBuilder circuit opts (world st) in
  let second := frontend_Compile curveID newBuilder circuit opts (snd first) in
  match fst first with
  | inr err =>
      compile circuit curveID backendID opts st
      = (TRet (None, Some (ErrorString err)), set_world st (snd first)) /\
      errors_Is (ErrorString err) ErrCompilationNotDeterministic = false
  | inl ccs =>
      match fst second with
      | inr err =>
          exists e,
            compile circuit curveID backendID opts st
            = (TRet (None, Some e), set_world st (snd second)) /\
            errors_Is e ErrCompilationNotDeterministic = true /\
            Error e = "compilation is not deterministic: " ++ err
      | inl _ccs =>
          (ccs <> _ccs ->
           compile circuit curveID backendID opts st
           = (TRet (None, Some ErrCompilationNotDeterministic), set_world st (snd second))) /\
          (ccs = _ccs ->
           compile circuit curveID backendID opts st
           = (TRet (Some ccs, None),
              mkTState
                (<[cache_key circuit curveID backendID (Pointer circuit) := ccs]> (compiled st))
                (logged st) (snd second)))
      end
  end.
Proof.
  intros Hptr Hkey Hb first second. subst first second.
  unfold compile, getCircuitAddr. rewrite Hptr, Hkey, Hb.
  destruct (frontend_Compile curveID newBuilder circuit opts (world st)) as [[ccs|err] w1];
    simpl; [|by split].
  destruct (frontend_Compile curveID newBuilder circuit opts w1) as [[_ccs|err] w2]; simpl.
  - split; intros Hc.
    + by rewrite bool_decide_eq_false_2.
    + by rewrite bool_decide_eq_true_2.
  - eexists. split; [reflexivity|]. by split.
Qed.

(* --------------------------------------------------------------------- *)
(** *** Properties of [fuzzer]                                            *)
(* --------------------------------------------------------------------- *)

Ltac run_T :=
  unfold solvingSucceeded, solvingFailed, checkError, mustError, lazySchema,
    call_IsSolved, NoError, or_panic, Log, FailNow, panic, bind, ret, foreign in *;
  simpl in *.

(** [solvingSucceeded] returns exactly when the witness parses, [compile]
    hands out a constraint system and that system is solved. *)
Lemma solvingSucceeded_returns circuit w b curve opt st :
  IsSolved circuit w curve false = None ->
  fst (solvingSucceeded circuit w b curve opt st) = TRet tt <->
  exists wit ccs,
    frontend_NewWitness w curve = inl wit /\
    fst (compile circuit curve b (compileOpts opt) st) = TRet (Some ccs, None) /\
    ccs_IsSolved ccs wit (solverOpts opt) = None.
Proof.
  intros Hv. run_T. rewrite Hv.
  destruct (frontend_NewWitness w curve) as [wit|e]; simpl.
  2: { split; [done|]. by intros (? & ? & ? & _). }
  destruct (compile circuit curve b (compileOpts opt) st) as [[[[ccs|] [e|]]|msg|msg] st2];
    simpl;
    try (split; [by repeat case_match | by intros (? & ? & _ & ? & _)]).
  destruct (ccs_IsSolved ccs wit (solverOpts opt)) as [e|] eqn:Hs; simpl.
  - split; [by repeat case_match|].
    intros (? & ? & ? & ? & ?); simplify_eq.
  - split; [|done]. intros _. by exists wit, ccs.
Qed.

(** [solvingFailed] returns exactly when the witness parses, [compile]
    hands out a constraint system and solving that system fails. *)
Lemma solvingFailed_returns circuit w b curve opt st :
  IsSolved circuit w curve false <> None ->
  fst (solvingFailed circuit w b curve opt st) = TRet tt <->
  exists wit ccs e,
    frontend_NewWitness w curve = inl wit /\
    fst (compile circuit curve b (compileOpts opt) st) = TRet (Some ccs, None) /\
    ccs_IsSolved ccs wit (solverOpts opt) = Some e.
Proof.
  intros Hv. run_T.
  destruct (IsSolved circuit w curve false) as [ev|]; [clear Hv|done].
  destruct (frontend_NewWitness w curve) as [wit|e]; simpl.
  2: { split; [done|]. by intros (? & ? & ? & ? & _). }
  destruct (compile circuit curve b (compileOpts opt) st) as [[[[ccs|] [e|]]|msg|msg] st2];
    simpl;
    try (split; [by repeat case_match | by intros (? & ? & ? & _ & ? & _)]).
  destruct (ccs_IsSolved ccs wit (solverOpts opt)) as [e|] eqn:Hs; simpl.
  - split; [|done]. intros _. by exists wit, ccs, e.
  - split; [by repeat case_match|].
    intros (? & ? & ? & ? & ? & ?); simplify_eq.
Qed.

(** What [fuzzer] does once the two verdicts are known. *)
Lemma fuzzer_unfold fill circuit w b curve opt st :
  let w' := fst (fill w curve (world st)) in
  let st1 := set_world st (snd (fill w curve (world st))) in
  let errVars := IsSolved circuit w' curve false in
  let errConsts := IsSolved circuit w' curve true in
  fuzzer fill circuit w b curve opt st
  = match errVars, errConsts with
    | None, None => (solvingSucceeded circuit w' b curve opt ;; ret 1) st1
    | Some _, Some _ => (solvingFailed circuit w' b curve opt ;; ret 0) st1
    | _, _ =>
        (let* wit := or_panic (frontend_NewWitness w' curve) in
         let* s := or_panic (frontend_NewSchema circuit) in
         let* bb := or_panic (ToJSON wit s) in
         Log [LStr "errVars"; LErr errVars] ;;
         Log [LStr "errConsts"; LErr errConsts] ;;
         Log [LStr "fuzzer witness"; LStr bb] ;;
         FailNow mismatch) st1
    end.
Proof.
  intros w' st1 errVars errConsts. subst w' st1 errVars errConsts.
  unfold fuzzer, run_filler. unfold bind at 1.
  destruct (fill w curve (world st)) as [w' wd]. simpl.
  destruct (IsSolved circuit w' curve false) as [ev|],
           (IsSolved circuit w' curve true) as [ec|]; simpl; try reflexivity.
  - unfold bind, or_panic, Log, FailNow, panic, ret.
    destruct (frontend_NewWitness w' curve) as [wit|e]; [|reflexivity].
    destruct (frontend_NewSchema circuit) as [s|e]; [|reflexivity].
    destruct (ToJSON wit s) as [bb|e]; reflexivity.
  - unfold bind, or_panic, Log, FailNow, panic, ret.
    destruct (frontend_NewWitness w' curve) as [wit|e]; [|reflexivity].
    destruct (frontend_NewSchema circuit) as [s|e]; [|reflexivity].
    destruct (ToJSON wit s) as [bb|e]; reflexivity.
Qed.

(** C3. [fuzzer] fills the witness, then evaluates the circuit on it
    with the test engine once as it is ([errVars]) and once with all
    variables set as constants ([errConsts]).
    - If exactly one of the two succeeds, the call never returns: when
      the witness serialises it logs [errVars], [errConsts] and the
      witness, in this order, and fails the test at once with the
      mismatch message.
    - If both succeed, the call returns (then with 1) exactly when the
      compiled constraint system is also solved by the witness.
    - If both fail, the call returns (then with 0) exactly when solving
      the compiled constraint system fails too. *)
Theorem fuzzer_verdicts fill circuit w b curve opt st :
  let w' := fst (fill w curve (world st)) in
  let st1 := set_world st (snd (fill w curve (world st))) in
  let errVars := IsSolved circuit w' curve false in
  let errConsts := IsSolved circuit w' curve true in
  let in_system (verdict : option string -> Prop) :=
    exists wit ccs,
      frontend_NewWitness w' curve = inl wit /\
      fst (compile circuit curve b (compileOpts opt) st1) = TRet (Some ccs, None) /\
      verdict (ccs_IsSolved ccs wit (solverOpts opt)) in
  (is_nil errVars <> is_nil errConsts ->
     (forall v, fst (fuzzer fill circuit w b curve opt st) <> TRet v) /\
     (forall wit s bb,
        frontend_NewWitness w' curve = inl wit ->
        frontend_NewSchema circuit = inl s ->
        ToJSON wit s = inl bb ->
        fuzzer fill circuit w b curve opt st
        = (TFailNow mismatch,
           mkTState (compiled st1)
             (logged st1 ++ [ [LStr "errVars"; LErr errVars];
                              [LStr "errConsts"; LErr errConsts];
                              [LStr "fuzzer witness"; LStr bb] ])
             (world st1)))) /\
  (errVars = None -> errConsts = None ->
     (fst (fuzzer fill circuit w b curve opt st) = TRet 1 <-> in_system (fun v => v = None)) /\
     (forall v, fst (fuzzer fill circuit w b curve opt st) = TRet v -> v = 1)) /\
  (errVars <> None -> errConsts <> None ->
     (fst (fuzzer fill circuit w b curve opt st) = TRet 0 <-> in_system (fun v => v <> None)) /\
     (forall v, fst (fuzzer fill circuit w b curve opt st) = TRet v -> v = 0)).
Proof.
  intros w' st1 errVars errConsts in_system.
  pose proof (fuzzer_unfold fill circuit w b curve opt st) as Hrun.
  simpl in Hrun. fold w' st1 errVars errConsts in Hrun. rewrite Hrun. clear Hrun.
  split; [|split].
  - intros Hmis. split.
    + intros v.
      destruct errVars as [ev|], errConsts as [ec|]; try (by destruct Hmis);
        unfold bind, or_panic, Log, FailNow, panic, ret;
        destruct (frontend_NewWitness w' curve) as [wit|e]; try done;
        destruct (frontend_NewSchema circuit) as [s|e]; try done;
        by destruct (ToJSON wit s) as [bb|e].
    + intros wit s bb Hw Hs Hb.
      destruct errVars as [ev|], errConsts as [ec|]; try (by destruct Hmis);
        unfold bind, or_panic, Log, FailNow, panic, ret;
        rewrite Hw, Hs, Hb; cbn [logged compiled world];
        by rewrite <- !app_assoc.
  - intros Hv Hc. rewrite Hv, Hc.
    pose proof (solvingSucceeded_returns circuit w' b curve opt st1 Hv) as Hiff.
    unfold bind, ret.
    destruct (solvingSucceeded circuit w' b curve opt st1) as [[[]|msg|msg] st2];
      simpl in *.
    + split; [|by intros v [= <-]]. split; [intros _; by apply Hiff|done].
    + split; [|done]. split; [done|]. intros Hin. by apply Hiff in Hin.
    + split; [|done]. split; [done|]. intros Hin. by apply Hiff in Hin.
  - intros Hv Hc.
    pose proof (solvingFailed_returns circuit w' b curve opt st1 Hv) as Hiff.
    assert (Hin_iff : in_system (fun v => v <> None) <->
      exists wit ccs e,
        frontend_NewWitness w' curve = inl wit /\
        fst (compile circuit curve b (compileOpts opt) st1) = TRet (Some ccs, None) /\
        ccs_IsSolved ccs wit (solverOpts opt) = Some e).
    { unfold in_system. split.
      - intros (wit & ccs & Hw & Hcomp & Hs).
        destruct (ccs_IsSolved ccs wit (solverOpts opt)) as [e|] eqn:He; [|done].
        by exists wit, ccs, e.
      - intros (wit & ccs & e & Hw & Hcomp & Hs). exists wit, ccs.
        by rewrite Hs. }
    rewrite Hin_iff. clear Hin_iff.
    destruct errVars as [ev|]; [|done]. destruct errConsts as [ec|]; [|done].
    unfold bind, ret.
    destruct (solvingFailed circuit w' b curve opt st1) as [[[]|msg|msg] st2];
      simpl in *.
    + split; [|by intros v [= <-]]. split; [intros _; by apply Hiff|done].
    + split; [|done]. split; [done|]. intros Hin. by apply Hiff in Hin.
    + split; [|done]. split; [done|]. intros Hin. by apply Hiff in Hin.
Qed.

End Assert.

(* --------------------------------------------------------------------- *)
(** *** Concrete runs                                                     *)
(* --------------------------------------------------------------------- *)

(** A one-variable circuit asserting [a * a == 36].  A circuit value is
    whether it is given by pointer and the value assigned to [a]; a
    compiled system is a number; the world counts the compilations done.
    The compiler and the test engine are left open. *)
Module Demo.

Definition env (compiler : nat -> Z + string) (engine : Z -> bool -> option string) : Env := {|
  World := nat;
  Circuit := bool * Z;
  CCS := Z;
  Witness := Z;
  Schema := unit;
  CompileOption := unit;
  SolverOption := unit;
  is_Ptr := fst;
  Pointer := fun _ => 824633802752;
  TypeOf_String := fun _ => "*test.squareCircuit";
  curve_number := fun c => Z.of_N (Ecc.ID_to_N c) + 1;
  backend_number := fun b =>
    match b with GROTH16 => 1 | PLONK => 2 | PLONKFRI => 3 | OtherBackend n => 4 + Z.of_N n end;
  curve_String := fun c => match c with Ecc.BN254 => "bn254" | _ => "other" end;
  backend_String := fun b =>
    match b with GROTH16 => "groth16" | PLONK => "plonk" | PLONKFRI => "plonkFRI" | _ => "unknown" end;
  frontend_Compile := fun _ _ _ _ n => (compiler n, Datatypes.S n);
  IsSolved := fun _ w _ consts => engine (snd w) consts;
  frontend_NewWitness := fun w _ => inl (snd w);
  frontend_NewSchema := fun _ => inl tt;
  schema_New := fun _ => inl tt;
  ToJSON := fun wit _ => inl ("{a:" ++ pretty wit ++ "}");
  ccs_IsSolved := fun _ wit _ =>
    if wit * wit =? 36 then None else Some "constraint #0 is not satisfied"
|}.

(** A compiler that always produces the same system, and one that fails
    from the second compilation on. *)
Definition steady (_ : nat) : Z + string := inl 36.
Definition flaky (n : nat) : Z + string :=
  match n with O => inl 36 | _ => inr "out of memory" end.

(** A test engine that agrees with the constraint, and one that is wrong
    on constants. *)
Definition sound (a : Z) (_ : bool) : option string :=
  if a * a =? 36 then None else Some "assertion failed".
Definition diverging (a : Z) (consts : bool) : option string :=
  if consts then Some "assertion failed" else sound a consts.

Definition steady_env : Env := env steady sound.
Definition flaky_env : Env := env flaky sound.
Definition diverging_env : Env := env steady diverging.

Definition circuit : bool * Z := (true, 0).
Definition set_a (a : Z) : bool * Z -> Ecc.ID -> nat -> (bool * Z) * nat :=
  fun w _ n => ((fst w, a), n).

Definition st0 (e : Env) (w : @World e) : @TState e := mkTState ∅ [] w.
Definition cfg (e : Env) (u : list (@CompileOption e)) (v : list (@SolverOption e)) :=
  @mkTestingConfig e u v.

End Demo.

Example fuzzer_valid_witness :
  fst (@fuzzer Demo.steady_env (Demo.set_a 6) Demo.circuit Demo.circuit
         PLONK Ecc.BN254 (Demo.cfg _ [] []) (Demo.st0 Demo.steady_env 0%nat))
  = TRet 1.
Proof. vm_compute. reflexivity. Qed.

Example fuzzer_invalid_witness :
  fst (@fuzzer Demo.steady_env (Demo.set_a 5) Demo.circuit Demo.circuit
         PLONK Ecc.BN254 (Demo.cfg _ [] []) (Demo.st0 Demo.steady_env 0%nat))
  = TRet 0.
Proof. vm_compute. reflexivity. Qed.

(** With the compiler that fails the second time, the error [compile]
    returns for a failed compilation is a non-determinism fault. *)
Lemma compile_failure_reported_as_nondeterminism :
  @frontend_Compile Demo.flaky_env Ecc.BN254 scs_NewBuilder Demo.circuit [] 1%nat
    = (inr "out of memory", 2%nat) /\
  exists err,
    fst (@compile Demo.flaky_env Demo.circuit Ecc.BN254 PLONK [] (Demo.st0 Demo.flaky_env 0%nat))
      = TRet (None, Some err) /\
    errors_Is err ErrCompilationNotDeterministic = true.
Proof.
  split; [reflexivity|].
  eexists. split; vm_compute; reflexivity.
Qed.

Lemma compile_determinism_check_witness :
  @compile Demo.steady_env Demo.circuit Ecc.BN254 PLONK [] (Demo.st0 Demo.steady_env 0%nat)
  = (TRet (Some 36, None),
     @mkTState Demo.steady_env {[ "12*test.squareCircuit824633802752" := 36 ]} [] 2%nat).
Proof.
  set (e := Demo.steady_env).
  pose proof (@compile_determinism_check e Demo.circuit Ecc.BN254 PLONK [] (Demo.st0 e 0%nat)
                scs_NewBuilder eq_refl eq_refl eq_refl) as H.
  hnf in H. destruct H as [_ H]. rewrite (H eq_refl). vm_compute. reflexivity.
Defined.

Lemma fuzzer_verdicts_witness :
  @fuzzer Demo.diverging_env (Demo.set_a 6) Demo.circuit Demo.circuit PLONK Ecc.BN254
    (Demo.cfg Demo.diverging_env [] []) (Demo.st0 Demo.diverging_env 0%nat)
  = (TFailNow mismatch,
     @mkTState Demo.diverging_env ∅
       [ [LStr "errVars"; LErr None];
         [LStr "errConsts"; LErr (Some "assertion failed")];
         [LStr "fuzzer witness"; LStr "{a:6}"] ] 0%nat).
Proof.
  set (e := Demo.diverging_env).
  pose proof (@fuzzer_verdicts e (Demo.set_a 6) Demo.circuit Demo.circuit PLONK Ecc.BN254
                (Demo.cfg e [] []) (Demo.st0 e 0%nat)) as [Hmis _].
  destruct Hmis as [_ Hlog]; [discriminate|].
  rewrite (Hlog 6 tt "{a:6}" eq_refl eq_refl eq_refl). reflexivity.
Defined.

End TestEngine.

(* ===================================================================== *)
(** ** constraint/solver/options.go: how the options compose              *)
(* ===================================================================== *)

Module SolverLaws.
Import Go Solver.

Section Laws.
Context {HintFn ZLogger : Type}.
Variable defaultLogger zeroLogger : ZLogger.
Implicit Types (h : @Heap HintFn) (opt : @Config ZLogger) (m : gmap N HintFn).
Implicit Types (x : @Hint HintFn) (hs : list (@Hint HintFn)) (l : positive).

(** The first hint of a list carrying a given id. *)
Definition first_with_id (k : N) hs : option (@Hint HintFn) :=
  List.find (fun x => N.eqb (ID x) k) hs.

(** The map the loop of [WithHints] leaves, key by key. *)
Lemma withHints_loop_lookup hs : forall h l m,
  maps h !! l = Some m ->
  exists h' m',
    withHints_loop (Some l) hs h = (Ret None, h') /\
    maps h' !! l = Some m' /\
    forall k, m' !! k = match m !! k with
                        | Some f => Some f
                        | None => Fn <$> first_with_id k hs
                        end.
Proof.
  induction hs as [|x hs IH]; intros h l m Hm; simpl.
  - exists h, m. repeat split; try done. intros k. by destruct (m !! k).
  - destruct (withHints_step_alloc h l m x Hm) as (h1 & Hs & _ & Hcase).
    rewrite Hs.
    destruct (m !! ID x) as [f|] eqn:Hx.
    + subst h1. destruct (IH (send (duplicate_warning (ID x)) h) l m Hm)
        as (h' & m' & Hrun & Hm' & Hlook).
      exists h', m'. repeat split; try done.
      intros k. rewrite Hlook. destruct (m !! k) as [g|] eqn:Hk; [done|].
      unfold first_with_id. simpl.
      destruct (N.eqb_spec (ID x) k) as [Heq|_]; [congruence|done].
    + destruct Hcase as [Hm1 _].
      destruct (IH h1 l _ Hm1) as (h' & m' & Hrun & Hm' & Hlook).
      exists h', m'. repeat split; try done.
      intros k. rewrite Hlook. unfold first_with_id. simpl.
      destruct (N.eqb_spec (ID x) k) as [Heq|Hne].
      * rewrite <- Heq. by rewrite lookup_insert_eq, Hx.
      * rewrite lookup_insert_ne by done. done.
Qed.

(** X1. After [WithHints], an id the configuration already had keeps its
    function, and an id it did not have is bound to the function of the
    first hint in the list that carries it (later hints with that id are
    ignored); ids carried by no hint stay unbound. *)
Theorem WithHints_first_binding_wins opt h m hs :
  deref h (HintFunctions opt) = Some m ->
  exists h' m',
    WithHints hs opt h = (Ret None, (opt, h')) /\
    deref h' (HintFunctions opt) = Some m' /\
    forall k, m' !! k = match m !! k with
                        | Some f => Some f
                        | None => Fn <$> first_with_id k hs
                        end.
Proof.
  destruct opt as [[l|] lg]; simpl; [|done]. intros Hm.
  destruct (withHints_loop_lookup hs h l m Hm) as (h' & m' & Hrun & Hm' & Hlook).
  exists h', m'. unfold WithHints. simpl. by rewrite Hrun.
Qed.

(** When every hint of the list is already bound, the loop only logs. *)
Lemma withHints_loop_all_bound hs : forall h l m,
  maps h !! l = Some m ->
  Forall (fun x => is_Some (m !! ID x)) hs ->
  withHints_loop (Some l) hs h
  = (Ret None,
     mkHeap (maps h) (registry h) (log h ++ map (fun x => duplicate_warning (ID x)) hs)).
Proof.
  induction hs as [|x hs IH]; intros h l m Hm Hall; simpl.
  - rewrite app_nil_r. by destruct h.
  - inversion Hall as [|? ? [f Hx] Hrest]; subst.
    unfold withHints_step, mapread, deref. rewrite Hm, Hx.
    rewrite (IH _ l m) by done. simpl. by rewrite <- app_assoc.
Qed.

(** X2. Passing the same hints to [WithHints] a second time changes no
    map: it only logs one duplicate-hint warning per hint, in order. *)
Theorem WithHints_twice opt h m hs :
  deref h (HintFunctions opt) = Some m ->
  exists h1,
    WithHints hs opt h = (Ret None, (opt, h1)) /\
    WithHints hs opt h1
    = (Ret None,
       (opt, mkHeap (maps h1) (registry h1)
                    (log h1 ++ map (fun x => duplicate_warning (ID x)) hs))).
Proof.
  destruct opt as [[l|] lg]; simpl; [|done]. intros Hm.
  destruct (withHints_loop_lookup hs h l m Hm) as (h1 & m1 & Hrun & Hm1 & Hlook).
  exists h1. unfold WithHints. simpl. rewrite Hrun. split; [done|].
  rewrite (withHints_loop_all_bound hs h1 l m1); [done|done|].
  apply Forall_forall. intros x Hin. rewrite Hlook.
  destruct (m !! ID x) as [f|]; [by eexists|].
  unfold first_with_id.
  destruct (List.find (fun y => N.eqb (ID y) (ID x)) hs) as [y|] eqn:Hf; [by eexists|].
  apply list_elem_of_In in Hin.
  pose proof (List.find_none _ _ Hf x Hin) as Hno. simpl in Hno.
  by rewrite N.eqb_refl in Hno.
Qed.

(** An exported option on an allocated map returns nil. *)
Lemma exported_ok (o : Option) opt h l :
  exported o ->
  HintFunctions opt = Some l ->
  is_Some (maps h !! l) ->
  exists opt' h',
    o opt h = (Ret None, (opt', h')) /\
    HintFunctions opt' = Some l /\ is_Some (maps h' !! l) /\ frame l h h'.
Proof.
  intros Ho Hl [m Hm]. destruct Ho as [hs|id f|lg].
  - destruct (withHints_loop_alloc hs h l m Hm) as (h' & m' & Hrun & Hm' & _ & Hf).
    exists opt, h'. unfold WithHints. rewrite Hl, Hrun.
    repeat split; try done; apply Hf.
  - unfold OverrideHint. rewrite Hl, (mapwrite_alloc _ _ _ _ _ Hm).
    eexists _, _. split; [reflexivity|]. repeat split; try done; simpl.
    + rewrite lookup_insert_eq. by eexists.
    + intros l' Hne. by rewrite lookup_insert_ne.
  - exists (mkConfig (HintFunctions opt) lg), h.
    split; [reflexivity|]. split; [exact Hl|]. split; [by eexists|].
    apply frame_refl.
Qed.

Lemma applyOptions_app pre : forall post opt h,
  applyOptions zeroLogger (pre ++ post) opt h
  = match applyOptions zeroLogger pre opt h with
    | (Ret (opt', None), h') => applyOptions zeroLogger post opt' h'
    | other => other
    end.
Proof.
  induction pre as [|o pre IH]; intros post opt h; simpl; [done|].
  destruct (o opt h) as [[[e|]|msg] [opt' h']]; try done; apply IH.
Qed.

Lemma applyOptions_exported opts : forall opt h l,
  Forall exported opts ->
  HintFunctions opt = Some l ->
  is_Some (maps h !! l) ->
  exists cfg h',
    applyOptions zeroLogger opts opt h = (Ret (cfg, None), h') /\
    HintFunctions cfg = Some l /\ is_Some (maps h' !! l) /\ frame l h h'.
Proof.
  induction opts as [|o opts IH]; intros opt h l Hall Hl Hm; simpl.
  - exists opt, h. repeat split; try done.
  - inversion Hall as [|? ? Ho Hrest]; subst.
    destruct (exported_ok o opt h l Ho Hl Hm) as (opt1 & h1 & Heq & Hl1 & Hm1 & Hf1).
    rewrite Heq.
    destruct (IH opt1 h1 l Hrest Hl1 Hm1) as (cfg & h' & Hrun & Hl' & Hm' & Hf').
    exists cfg, h'. repeat split; try done; by apply (frame_trans l h h1 h').
Qed.

(** [NewConfig] up to the option loop: the fresh map holds what the loop
    over the registry copied into it. *)
Definition copied (h : @Heap HintFn) : gmap N HintFn :=
  foldl (fun acc kv => <[kv.1 := kv.2]> acc) ∅
    (range_entries (snd (make_map h)) (GetRegisteredHints (snd (make_map h)))).

Lemma NewConfig_start opts h :
  NewConfig defaultLogger zeroLogger opts h
  = applyOptions zeroLogger opts (mkConfig (Some (fresh (dom (maps h)))) defaultLogger)
      (mkHeap (<[fresh (dom (maps h)) := copied h]> (maps h)) (registry h) (log h)).
Proof.
  unfold NewConfig, copied, make_map. simpl.
  rewrite (copy_entries_alloc _ _ (fresh (dom (maps h))) ∅) by (simpl; apply lookup_insert_eq).
  simpl. by rewrite insert_insert_eq.
Qed.

Lemma copied_registry h (r : positive) (R : gmap N HintFn) :
  registry h = Some r -> maps h !! r = Some R -> copied h = R.
Proof.
  intros Hr HR.
  assert (Hlr : r <> fresh (dom (maps h))).
  { intros Heq. apply (is_fresh (dom (maps h))). rewrite <- Heq.
    apply elem_of_dom. by eexists. }
  unfold copied, range_entries, GetRegisteredHints, deref, make_map. simpl. rewrite Hr.
  rewrite lookup_insert_ne by done. rewrite HR. apply copy_all_entries.
Qed.

Lemma NewConfig_run opts h :
  Forall exported opts ->
  exists cfg h',
    NewConfig defaultLogger zeroLogger opts h = (Ret (cfg, None), h') /\
    HintFunctions cfg = Some (fresh (dom (maps h))) /\
    is_Some (maps h' !! fresh (dom (maps h))) /\
    frame (fresh (dom (maps h))) h h'.
Proof.
  intros Hall. rewrite NewConfig_start.
  destruct (applyOptions_exported opts
              (mkConfig (Some (fresh (dom (maps h)))) defaultLogger)
              (mkHeap (<[fresh (dom (maps h)) := copied h]> (maps h)) (registry h) (log h))
              (fresh (dom (maps h))) Hall eq_refl)
    as (cfg & h' & Happ & Hl & Hm & Hf).
  { simpl. rewrite lookup_insert_eq. by eexists. }
  rewrite Happ.
  exists cfg, h'. repeat split; try done.
  - destruct Hf as [Hreg _]. by rewrite Hreg.
  - destruct Hf as [_ Hmaps]. intros l' Hne. rewrite Hmaps by done. simpl.
    by rewrite lookup_insert_ne.
Qed.

(** X3. [OverrideHint] is unconditional and final with respect to
    [WithHints]: whatever hints are added before and after it, the id it
    names ends up bound to its function. *)
Theorem OverrideHint_wins opt h m before id f after :
  deref h (HintFunctions opt) = Some m ->
  exists h',
    applyOptions zeroLogger [WithHints before; OverrideHint id f; WithHints after] opt h
    = (Ret (opt, None), h') /\
    mapread h' (HintFunctions opt) id = Some f.
Proof.
  destruct opt as [[l|] lg]; simpl; [|done]. intros Hm.
  set (opt := mkConfig (Some l) lg).
  destruct (withHints_loop_lookup before h l m Hm) as (h1 & m1 & Hrun1 & Hm1 & _).
  assert (E1 : WithHints before opt h = (Ret None, (opt, h1))).
  { unfold WithHints, opt. simpl. by rewrite Hrun1. }
  set (h2 := mkHeap (<[l := <[id := f]> m1]> (maps h1)) (registry h1) (log h1)).
  assert (E2 : OverrideHint id f opt h1 = (Ret None, (opt, h2))).
  { unfold OverrideHint, opt. cbn [HintFunctions]. by rewrite (mapwrite_alloc _ _ _ _ _ Hm1). }
  destruct (withHints_loop_lookup after h2 l (<[id := f]> m1))
    as (h3 & m3 & Hrun3 & Hm3 & Hlook).
  { simpl. apply lookup_insert_eq. }
  assert (E3 : WithHints after opt h2 = (Ret None, (opt, h3))).
  { unfold WithHints, opt. simpl. by rewrite Hrun3. }
  exists h3. split.
  - cbn [applyOptions]. by rewrite E1, E2, E3.
  - unfold mapread, deref. rewrite Hm3, Hlook. by rewrite lookup_insert_eq.
Qed.

(** X4. A configuration whose hint map is nil (the zero [Config]) takes
    no hint: [OverrideHint] panics, and so does [WithHints] as soon as it
    is given one hint; both leave the heap and the log as they were.
    [WithHints] without hints returns nil. *)
Theorem options_on_nil_map (lg : ZLogger) h x hs id f :
  WithHints [] (mkConfig None lg) h = (Ret None, (mkConfig None lg, h)) /\
  WithHints (x :: hs) (mkConfig None lg) h = (Panic nil_map_panic, (mkConfig None lg, h)) /\
  OverrideHint id f (mkConfig None lg) h = (Panic nil_map_panic, (mkConfig None lg, h)).
Proof. repeat split. Qed.

(** X5. With the options this package exports, [NewConfig] neither
    panics nor returns an error, whatever the registry holds (even a nil
    registry): it returns a configuration whose hint map is a map that did
    not exist before the call. *)
Theorem NewConfig_exported_never_fails opts h :
  Forall exported opts ->
  exists cfg h' l,
    NewConfig defaultLogger zeroLogger opts h = (Ret (cfg, None), h') /\
    HintFunctions cfg = Some l /\
    (l ∉ dom (maps h)) /\
    is_Some (maps h' !! l).
Proof.
  intros Hall. destruct (NewConfig_run opts h Hall) as (cfg & h' & Hrun & Hl & Hm & _).
  exists cfg, h', (fresh (dom (maps h))). repeat split; try done. apply is_fresh.
Qed.

(** X6. Two configurations built one after the other never share their
    hint map: the second call allocates another map and leaves the map of
    the first configuration untouched. *)
Theorem NewConfig_configs_do_not_alias opts1 opts2 h :
  Forall exported opts1 -> Forall exported opts2 ->
  exists cfg1 h1 cfg2 h2 l1 l2,
    NewConfig defaultLogger zeroLogger opts1 h = (Ret (cfg1, None), h1) /\
    NewConfig defaultLogger zeroLogger opts2 h1 = (Ret (cfg2, None), h2) /\
    HintFunctions cfg1 = Some l1 /\ HintFunctions cfg2 = Some l2 /\
    l1 <> l2 /\
    maps h2 !! l1 = maps h1 !! l1.
Proof.
  intros Hall1 Hall2.
  destruct (NewConfig_run opts1 h Hall1) as (cfg1 & h1 & Hrun1 & Hl1 & Hm1 & _).
  destruct (NewConfig_run opts2 h1 Hall2) as (cfg2 & h2 & Hrun2 & Hl2 & _ & Hf2).
  exists cfg1, h1, cfg2, h2, (fresh (dom (maps h))), (fresh (dom (maps h1))).
  assert (Hne : fresh (dom (maps h)) <> fresh (dom (maps h1))).
  { intros Heq. apply (is_fresh (dom (maps h1))). rewrite <- Heq. by apply elem_of_dom. }
  repeat split; try done. destruct Hf2 as [_ Hmaps]. by apply Hmaps.
Qed.

(** The options that only add: [WithHints] and [WithLogger]. *)
Inductive additive : @Option HintFn ZLogger -> Prop :=
| additive_WithHints hs : additive (WithHints hs)
| additive_WithLogger lg : additive (WithLogger lg).

Lemma applyOptions_additive opts : forall opt h l m,
  Forall additive opts ->
  HintFunctions opt = Some l ->
  maps h !! l = Some m ->
  exists cfg h' m',
    applyOptions zeroLogger opts opt h = (Ret (cfg, None), h') /\
    HintFunctions cfg = Some l /\ maps h' !! l = Some m' /\ m ⊆ m'.
Proof.
  induction opts as [|o opts IH]; intros opt h l m Hall Hl Hm; simpl.
  - exists opt, h, m. repeat split; done.
  - inversion Hall as [|? ? Ho Hrest]; subst. destruct Ho as [hs|lg].
    + destruct (withHints_loop_alloc hs h l m Hm) as (h1 & m1 & Hrun & Hm1 & Hsub & _).
      unfold WithHints. rewrite Hl, Hrun.
      destruct (IH opt h1 l m1 Hrest Hl Hm1) as (cfg & h' & m' & Happ & Hl' & Hm' & Hsub').
      exists cfg, h', m'. repeat split; try done. by etrans.
    + unfold WithLogger.
      destruct (IH (mkConfig (HintFunctions opt) lg) h l m Hrest Hl Hm)
        as (cfg & h' & m' & Happ & Hl' & Hm' & Hsub').
      exists cfg, h', m'. repeat split; done.
Qed.

(** X7. [WithHints] cannot displace a registered hint: when [NewConfig]
    is given only [WithHints] and [WithLogger] options, every entry of the
    registry is in the configuration it returns, with the same
    function. *)
Theorem NewConfig_keeps_registered_hints opts h (r : positive) (R : gmap N HintFn) :
  registry h = Some r ->
  maps h !! r = Some R ->
  Forall additive opts ->
  exists cfg h' l m,
    NewConfig defaultLogger zeroLogger opts h = (Ret (cfg, None), h') /\
    HintFunctions cfg = Some l /\ maps h' !! l = Some m /\ R ⊆ m.
Proof.
  intros Hr HR Hall. rewrite NewConfig_start, (copied_registry h r R Hr HR).
  destruct (applyOptions_additive opts
              (mkConfig (Some (fresh (dom (maps h)))) defaultLogger)
              (mkHeap (<[fresh (dom (maps h)) := R]> (maps h)) (registry h) (log h))
              (fresh (dom (maps h))) R Hall eq_refl)
    as (cfg & h' & m' & Happ & Hl & Hm & Hsub).
  { simpl. apply lookup_insert_eq. }
  rewrite Happ.
  by exists cfg, h', (fresh (dom (maps h))), m'.
Qed.

(** An option that returns an error. *)
Definition failing (e : string) : @Option HintFn ZLogger :=
  fun opt h => (Ret (Some e), (opt, h)).

(** X8. [NewConfig] stops at the first option that returns an error: it
    returns the zero [Config] with that error, and the options after it
    are not run (the heap is as the options before it left it). *)
Theorem NewConfig_stops_at_first_error pre e post h :
  Forall exported pre ->
  NewConfig defaultLogger zeroLogger (pre ++ failing e :: post) h
  = (Ret (mkConfig None zeroLogger, Some e),
     snd (NewConfig defaultLogger zeroLogger pre h)).
Proof.
  intros Hall. rewrite !NewConfig_start, applyOptions_app.
  destruct (applyOptions_exported pre
              (mkConfig (Some (fresh (dom (maps h)))) defaultLogger)
              (mkHeap (<[fresh (dom (maps h)) := copied h]> (maps h)) (registry h) (log h))
              (fresh (dom (maps h))) Hall eq_refl)
    as (cfg & h' & Happ & _).
  { simpl. rewrite lookup_insert_eq. by eexists. }
  rewrite Happ. reflexivity.
Qed.

End Laws.

Definition three_hints : list (@Hint string) :=
  [mkHint 3%N "a"; mkHint 7%N "b"; mkHint 3%N "c"].

Lemma WithHints_first_binding_wins_witness :
  exists h' m',
    WithHints three_hints demo_config demo_config_heap = (Ret None, (demo_config, h')) /\
    deref h' (HintFunctions demo_config) = Some m' /\
    forall k, m' !! k = match ({[ 7%N := "registered" ]} : gmap N string) !! k with
                        | Some f => Some f
                        | None => Fn <$> first_with_id k three_hints
                        end.
Proof.
  apply (WithHints_first_binding_wins demo_config demo_config_heap {[ 7%N := "registered" ]}).
  vm_compute. reflexivity.
Defined.

Lemma WithHints_twice_witness :
  exists h1,
    WithHints three_hints demo_config demo_config_heap = (Ret None, (demo_config, h1)) /\
    WithHints three_hints demo_config h1
    = (Ret None,
       (demo_config,
        mkHeap (maps h1) (registry h1)
               (log h1 ++ map (fun x => duplicate_warning (ID x)) three_hints))).
Proof.
  apply (WithHints_twice demo_config demo_config_heap {[ 7%N := "registered" ]}).
  vm_compute. reflexivity.
Defined.

Lemma OverrideHint_wins_witness :
  exists h',
    applyOptions "" [WithHints three_hints; OverrideHint 3%N "mine"; WithHints three_hints]
      demo_config demo_config_heap
    = (Ret (demo_config, None), h') /\
    mapread h' (HintFunctions demo_config) 3%N = Some "mine".
Proof.
  apply (OverrideHint_wins "" demo_config demo_config_heap {[ 7%N := "registered" ]}).
  vm_compute. reflexivity.
Defined.

Definition two_options : list (@Option string string) :=
  [OverrideHint 7%N "override"; WithLogger "mine"].

Lemma two_options_exported : Forall exported two_options.
Proof. repeat constructor. Qed.

Lemma NewConfig_exported_never_fails_witness :
  exists cfg h' l,
    NewConfig "gnark" "" two_options demo_heap = (Ret (cfg, None), h') /\
    HintFunctions cfg = Some l /\
    (l ∉ dom (maps demo_heap)) /\
    is_Some (maps h' !! l).
Proof.
  apply (NewConfig_exported_never_fails "gnark" "" two_options demo_heap).
  repeat constructor.
Defined.

Lemma NewConfig_configs_do_not_alias_witness :
  exists cfg1 h1 cfg2 h2 l1 l2,
    NewConfig "gnark" "" two_options demo_heap = (Ret (cfg1, None), h1) /\
    NewConfig "gnark" "" [WithHints three_hints] h1 = (Ret (cfg2, None), h2) /\
    HintFunctions cfg1 = Some l1 /\ HintFunctions cfg2 = Some l2 /\
    l1 <> l2 /\
    maps h2 !! l1 = maps h1 !! l1.
Proof.
  apply (NewConfig_configs_do_not_alias "gnark" "" two_options [WithHints three_hints] demo_heap);
    repeat constructor.
Defined.

Lemma NewConfig_keeps_registered_hints_witness :
  exists cfg h' l m,
    NewConfig "gnark" "" [WithHints three_hints; WithLogger "mine"] demo_heap
      = (Ret (cfg, None), h') /\
    HintFunctions cfg = Some l /\ maps h' !! l = Some m /\
    ({[ 7%N := "registered" ]} : gmap N string) ⊆ m.
Proof.
  apply (NewConfig_keeps_registered_hints "gnark" ""
           [WithHints three_hints; WithLogger "mine"] demo_heap 1%positive).
  - reflexivity.
  - vm_compute. reflexivity.
  - repeat constructor.
Defined.

Lemma NewConfig_stops_at_first_error_witness :
  NewConfig "gnark" "" (two_options ++ failing "bad option" :: [OverrideHint 9%N "late"]) demo_heap
  = (Ret (mkConfig None "", Some "bad option"),
     snd (NewConfig "gnark" "" two_options demo_heap)).
Proof.
  apply (NewConfig_stops_at_first_error "gnark" "" two_options). repeat constructor.
Defined.

End SolverLaws.

(* ===================================================================== *)
(** ** internal/ioutils: counting writers and readers                     *)
(* ===================================================================== *)

Module Ioutils.
Import Go.

(** Wrap-around of [int64]. *)
Definition int64 (z : Z) : Z := (z + 2 ^ 63) mod 2 ^ 64 - 2 ^ 63.

Definition nil_dereference : string :=
  "invalid memory address or nil pointer dereference".

Section Counters.

(** The writer and the reader behind the counters are [io.Writer] and
    [io.Reader] values: states with a [Write] and a [Read] method.  [Read]
    also returns what the buffer holds afterwards. *)
Context {WS RS : Type}.
Variable W_Write : WS -> list Byte.byte -> (Z * error) * WS.
Variable R_Read : RS -> list Byte.byte -> (Z * error * list Byte.byte) * RS.

(** The interface fields are [None] when nil. *)
Record WriterCounter := mkWriterCounter { W : option WS; WN : Z }.
Record ReaderCounter := mkReaderCounter { R : option RS; RN : Z }.

(** [WriterCounter.Write] (pointer receiver). *)
Definition Write (w : WriterCounter) (p : list Byte.byte)
  : Outcome (Z * error) * WriterCounter :=
  match W w with
  | None => (Panic nil_dereference, w)
  | Some ws =>
      let '((n, err), ws') := W_Write ws p in
      (Ret (n, err), mkWriterCounter (Some ws') (int64 (WN w + int64 n)))
  end.

(** [ReaderCounter.Read] (pointer receiver). *)
Definition Read (cr : ReaderCounter) (p : list Byte.byte)
  : Outcome (Z * error * list Byte.byte) * ReaderCounter :=
  match R cr with
  | None => (Panic nil_dereference, cr)
  | Some rs =>
      let '((n, err, p'), rs') := R_Read rs p in
      (Ret (n, err, p'), mkReaderCounter (Some rs') (int64 (RN cr + int64 n)))
  end.

(** Calling the underlying writer, and the counter, on one buffer after
    the other. *)
Fixpoint raw_writes (ws : WS) (ps : list (list Byte.byte)) : list (Z * error) * WS :=
  match ps with
  | [] => ([], ws)
  | p :: rest =>
      let '(r, ws1) := W_Write ws p in
      let '(rs, ws2) := raw_writes ws1 rest in
      (r :: rs, ws2)
  end.

Fixpoint counted_writes (w : WriterCounter) (ps : list (list Byte.byte))
  : list (Outcome (Z * error)) * WriterCounter :=
  match ps with
  | [] => ([], w)
  | p :: rest =>
      let '(r, w1) := Write w p in
      let '(rs, w2) := counted_writes w1 rest in
      (r :: rs, w2)
  end.

Fixpoint raw_reads (rs : RS) (ps : list (list Byte.byte))
  : list (Z * error * list Byte.byte) * RS :=
  match ps with
  | [] => ([], rs)
  | p :: rest =>
      let '(r, rs1) := R_Read rs p in
      let '(res, rs2) := raw_reads rs1 rest in
      (r :: res, rs2)
  end.

Fixpoint counted_reads (cr : ReaderCounter) (ps : list (list Byte.byte))
  : list (Outcome (Z * error * list Byte.byte)) * ReaderCounter :=
  match ps with
  | [] => ([], cr)
  | p :: rest =>
      let '(r, cr1) := Read cr p in
      let '(res, cr2) := counted_reads cr1 rest in
      (r :: res, cr2)
  end.

Definition total (ns : list Z) : Z := foldr Z.add 0 ns.

Lemma int64_add_l (a b : Z) : int64 (int64 a + b) = int64 (a + b).
Proof.
  unfold int64.
  replace ((a + 2 ^ 63) mod 2 ^ 64 - 2 ^ 63 + b + 2 ^ 63)
    with ((a + 2 ^ 63) mod 2 ^ 64 + b) by lia.
  rewrite Zplus_mod_idemp_l. f_equal. f_equal. lia.
Qed.

Lemma int64_add_r (a b : Z) : int64 (a + int64 b) = int64 (a + b).
Proof. rewrite (Z.add_comm a), int64_add_l. f_equal. lia. Qed.

Lemma int64_small (a : Z) : - 2 ^ 63 <= a < 2 ^ 63 -> int64 a = a.
Proof. intros Ha. unfold int64. rewrite Z.mod_small; lia. Qed.

(** X9. A [WriterCounter] is transparent and counts what the writer
    reports: over any sequence of [Write] calls it returns exactly what
    the underlying writer returns (short writes and errors included) and
    leaves the writer in the same state, and [N] ends as its initial
    value plus the sum of all the counts returned, in [int64]
    arithmetic; counts returned together with an error are added too. *)
Theorem WriterCounter_counts (ws : WS) (n0 : Z) (ps : list (list Byte.byte)) :
  - 2 ^ 63 <= n0 < 2 ^ 63 ->
  counted_writes (mkWriterCounter (Some ws) n0) ps
  = (map Ret (fst (raw_writes ws ps)),
     mkWriterCounter (Some (snd (raw_writes ws ps)))
       (int64 (n0 + total (map fst (fst (raw_writes ws ps)))))).
Proof.
  intros Hn0. rewrite <- (int64_small n0 Hn0) at 1. clear Hn0.
  revert ws n0. induction ps as [|p ps IH]; intros ws n0; simpl.
  - unfold total. simpl. by rewrite Z.add_0_r.
  - unfold Write. simpl.
    destruct (W_Write ws p) as [[n err] ws1]. rewrite int64_add_r.
    rewrite IH. destruct (raw_writes ws1 ps) as [rs ws2]. simpl.
    do 2 f_equal. rewrite <- Z.add_assoc. apply int64_add_l.
Qed.

(** X10. A [ReaderCounter] is transparent and counts what the reader
    reports: over any sequence of [Read] calls it returns exactly what
    the underlying reader returns and [N] ends as its initial value plus
    the sum of all the counts returned, in [int64] arithmetic. *)
Theorem ReaderCounter_counts (rs : RS) (n0 : Z) (ps : list (list Byte.byte)) :
  - 2 ^ 63 <= n0 < 2 ^ 63 ->
  counted_reads (mkReaderCounter (Some rs) n0) ps
  = (map Ret (fst (raw_reads rs ps)),
     mkReaderCounter (Some (snd (raw_reads rs ps)))
       (int64 (n0 + total (map (fun r => fst (fst r)) (fst (raw_reads rs ps)))))).
Proof.
  intros Hn0. rewrite <- (int64_small n0 Hn0) at 1. clear Hn0.
  revert rs n0. induction ps as [|p ps IH]; intros rs n0; simpl.
  - unfold total. simpl. by rewrite Z.add_0_r.
  - unfold Read. simpl.
    destruct (R_Read rs p) as [[[n err] p'] rs1]. rewrite int64_add_r.
    rewrite IH. destruct (raw_reads rs1 ps) as [res rs2]. simpl.
    do 2 f_equal. rewrite <- Z.add_assoc. apply int64_add_l.
Qed.

End Counters.

(** A writer that accepts at most four bytes at a time and fails on an
    empty buffer; a reader that delivers a fixed text three bytes at a
    time. *)
Definition demo_Write (ws : list Byte.byte) (p : list Byte.byte)
  : (Z * error) * list Byte.byte :=
  match p with
  | [] => ((0, Some "empty write"), ws)
  | _ => ((Z.of_nat (length (take 4 p)), None), (ws ++ take 4 p)%list)
  end.

Definition demo_Read (rs : list Byte.byte) (p : list Byte.byte)
  : (Z * error * list Byte.byte) * list Byte.byte :=
  match rs with
  | [] => ((0, Some "EOF", p), [])
  | _ => ((Z.of_nat (length (take 3 rs)), None, take 3 rs), drop 3 rs)
  end.

Definition demo_bytes : list Byte.byte :=
  [Byte.x67; Byte.x6e; Byte.x61; Byte.x72; Byte.x6b].

Lemma WriterCounter_counts_witness :
  counted_writes demo_Write (mkWriterCounter (Some []) 10) [demo_bytes; []; demo_bytes]
  = ([Ret (4, None); Ret (0, Some "empty write"); Ret (4, None)],
     mkWriterCounter (Some (take 4 demo_bytes ++ take 4 demo_bytes)%list) 18).
Proof.
  rewrite (WriterCounter_counts demo_Write [] 10) by lia. reflexivity.
Defined.

Lemma ReaderCounter_counts_witness :
  counted_reads demo_Read (mkReaderCounter (Some demo_bytes) 0) [[]; []; []]
  = ([Ret (3, None, take 3 demo_bytes); Ret (2, None, drop 3 demo_bytes);
      Ret (0, Some "EOF", [])],
     mkReaderCounter (Some []) 5).
Proof.
  rewrite (ReaderCounter_counts demo_Read demo_bytes 0) by lia. reflexivity.
Defined.

End Ioutils.

(* ===================================================================== *)
(** ** backend/plonk: the other dispatchers and the constructors          *)
(* ===================================================================== *)

Module PlonkBackend.
Import Go.

Section Backend.

(** The bn254 keys, proofs and witness vectors.  An interface value
    ([ProvingKey], [VerifyingKey], [Proof]) is nil ([None]) or an object
    of the package of some curve. *)
Context {PKData VKData ProofData SRSData Vector ProverOption : Type}.

Definition ProvingKey : Type := option (Ecc.ID * PKData).
Definition VerifyingKey : Type := option (Ecc.ID * VKData).
Definition Proof : Type := option (Ecc.ID * ProofData).

(** A [witness.Witness]: [Vector()] returns a vector typed by its field. *)
Record Witness := mkWitness { vector_field : Ecc.ID; Vector_ : Vector }.

(** [plonk_bn254.Prove], [plonk_bn254.Verify] and the zero values of the
    bn254 structs. *)
Variable plonk_bn254_Prove :
  Constraint.System -> PKData -> option Witness -> list ProverOption
  -> Outcome (option ProofData * error).
Variable plonk_bn254_Verify : ProofData -> VKData -> Vector -> Outcome error.
Variables (emptyPK : PKData) (emptyVK : VKData) (emptyProof : ProofData).

Definition unrecognized_proof : string := "unrecognized proof type".
Definition not_implemented : string := "not implemented".
Definition ErrInvalidWitness : string := "invalid witness".
Definition bad_conversion : string := "interface conversion: not a bn254 object".
Definition nil_dereference : string :=
  "invalid memory address or nil pointer dereference".

(** A bn254 pointer returned through the [Proof] interface. *)
Definition as_Proof (r : Outcome (option ProofData * error)) : Outcome (Proof * error) :=
  match r with
  | Ret (Some p, err) => Ret (Some (Ecc.BN254, p), err)
  | Ret (None, err) => Ret (None, err)
  | Panic msg => Panic msg
  end.

(** [Prove]. *)
Definition Prove (ccs : Constraint.ConstraintSystem) (pk : ProvingKey)
    (fullWitness : option Witness) (opts : list ProverOption) : Outcome (Proof * error) :=
  match ccs with
  | Some tccs =>
      match Constraint.curve tccs, Constraint.kind tccs with
      | Ecc.BN254, Constraint.SparseR1CS =>
          match pk with
          | Some (Ecc.BN254, tpk) => as_Proof (plonk_bn254_Prove tccs tpk fullWitness opts)
          | _ => Panic bad_conversion
          end
      | _, _ => Panic Plonk.unrecognized_curve
      end
  | None => Panic Plonk.unrecognized_curve
  end.

(** [Verify]. *)
Definition Verify (proof : Proof) (vk : VerifyingKey) (publicWitness : option Witness)
  : Outcome error :=
  match proof with
  | Some (Ecc.BN254, _proof) =>
      match publicWitness with
      | None => Panic nil_dereference
      | Some pw =>
          match vector_field pw with
          | Ecc.BN254 =>
              match vk with
              | Some (Ecc.BN254, tvk) => plonk_bn254_Verify _proof tvk (Vector_ pw)
              | _ => Panic bad_conversion
              end
          | _ => Ret (Some ErrInvalidWitness)
          end
      end
  | _ => Panic unrecognized_proof
  end.

(** [NewCS], [NewProvingKey], [NewProof], [NewVerifyingKey]. *)
Definition NewCS (curveID : Ecc.ID) : Outcome Constraint.ConstraintSystem :=
  match curveID with
  | Ecc.BN254 => Ret (Some (Constraint.mkSystem Ecc.BN254 Constraint.SparseR1CS 0 0))
  | _ => Panic not_implemented
  end.

Definition NewProvingKey (curveID : Ecc.ID) : Outcome ProvingKey :=
  match curveID with
  | Ecc.BN254 => Ret (Some (Ecc.BN254, emptyPK))
  | _ => Panic not_implemented
  end.

Definition NewProof (curveID : Ecc.ID) : Outcome Proof :=
  match curveID with
  | Ecc.BN254 => Ret (Some (Ecc.BN254, emptyProof))
  | _ => Panic not_implemented
  end.

Definition NewVerifyingKey (curveID : Ecc.ID) : Outcome VerifyingKey :=
  match curveID with
  | Ecc.BN254 => Ret (Some (Ecc.BN254, emptyVK))
  | _ => Panic not_implemented
  end.

(** X11. [Verify] checks the witness before the verifying key: for a
    bn254 proof and a public witness over any other field it returns
    [ErrInvalidWitness] (it does not panic), whatever the verifying key
    is, even nil or of another curve. *)
Theorem Verify_wrong_field_is_an_error (_proof : ProofData) (vk : VerifyingKey) (pw : Witness) :
  vector_field pw <> Ecc.BN254 ->
  Verify (Some (Ecc.BN254, _proof)) vk (Some pw) = Ret (Some ErrInvalidWitness).
Proof.
  intros Hne. unfold Verify. destruct (vector_field pw); try reflexivity. by destruct Hne.
Qed.

(** X12. The constructors and the dispatchers agree: each constructor
    returns an object exactly for BN254 and panics with "not implemented"
    for every other curve, and what the constructors return for a curve is
    accepted by [Prove] and [Verify], which hand it to the bn254
    implementation. *)
Theorem constructors_feed_dispatchers (curveID : Ecc.ID) :
  (curveID <> Ecc.BN254 ->
     NewCS curveID = Panic not_implemented /\
     NewProvingKey curveID = Panic not_implemented /\
     NewProof curveID = Panic not_implemented /\
     NewVerifyingKey curveID = Panic not_implemented) /\
  (forall ccs pk proof vk,
     NewCS curveID = Ret ccs -> NewProvingKey curveID = Ret pk ->
     NewProof curveID = Ret proof -> NewVerifyingKey curveID = Ret vk ->
     curveID = Ecc.BN254 /\
     (forall w opts,
        Prove ccs pk w opts
        = as_Proof (plonk_bn254_Prove
                      (Constraint.mkSystem Ecc.BN254 Constraint.SparseR1CS 0 0)
                      emptyPK w opts)) /\
     (forall v,
        Verify proof vk (Some (mkWitness Ecc.BN254 v))
        = plonk_bn254_Verify emptyProof emptyVK v)).
Proof.
  split.
  - intros Hne. destruct curveID; try done; by destruct Hne.
  - intros ccs pk proof vk Hcs Hpk Hproof Hvk.
    destruct curveID; try discriminate Hcs.
    injection Hcs as <-. injection Hpk as <-. injection Hproof as <-. injection Hvk as <-.
    repeat split.
Qed.

(** X13. Being over BN254 is not enough: [Setup] and [Prove] also panic
    with "unrecognized SparseR1CS curve type" on a nil constraint system
    and on every R1CS (not sparse) system, BN254's included. *)
Theorem Setup_Prove_reject_R1CS_and_nil
    (setup : Constraint.System -> SRSData
             -> Outcome (option ProvingKey * option VerifyingKey * error))
    (tccs : Constraint.System) (srs : @Plonk.SRS SRSData) pk w opts :
  Plonk.Setup setup None srs = Panic Plonk.unrecognized_curve /\
  Prove None pk w opts = Panic Plonk.unrecognized_curve /\
  (Constraint.kind tccs = Constraint.R1CS ->
     Plonk.Setup setup (Some tccs) srs = Panic Plonk.unrecognized_curve /\
     Prove (Some tccs) pk w opts = Panic Plonk.unrecognized_curve).
Proof.
  repeat split; unfold Plonk.Setup, Prove;
    destruct (Constraint.curve tccs); try reflexivity; by rewrite H.
Qed.

End Backend.

Lemma Verify_wrong_field_is_an_error_witness :
  Verify (fun (_ _ _ : unit) => Ret None) (Some (Ecc.BN254, tt)) None
         (Some (mkWitness Ecc.BLS12_377 tt))
  = Ret (Some ErrInvalidWitness).
Proof.
  apply (Verify_wrong_field_is_an_error (fun (_ _ _ : unit) => Ret None)). discriminate.
Defined.

Lemma constructors_feed_dispatchers_witness :
  @NewCS Ecc.BLS12_381 = Panic not_implemented /\
  @NewProvingKey unit tt Ecc.BLS12_381 = Panic not_implemented /\
  @NewProof unit tt Ecc.BLS12_381 = Panic not_implemented /\
  @NewVerifyingKey unit tt Ecc.BLS12_381 = Panic not_implemented.
Proof.
  apply (proj1 (@constructors_feed_dispatchers unit unit unit unit unit
                  (fun _ _ _ _ => Ret (None, None)) (fun _ _ _ => Ret None) tt tt tt
                  Ecc.BLS12_381)).
  discriminate.
Defined.

Lemma Setup_Prove_reject_R1CS_and_nil_witness :
  Plonk.Setup (fun _ (_ : unit) => Ret (@None (@ProvingKey unit), @None (@VerifyingKey unit), None))
    (Some (Constraint.mkSystem Ecc.BN254 Constraint.R1CS 10 2)) (Plonk.mkSRS Ecc.BN254 tt)
  = Panic Plonk.unrecognized_curve.
Proof.
  apply (proj2 (proj2 (@Setup_Prove_reject_R1CS_and_nil unit unit unit unit unit unit
           (fun _ _ _ _ => Ret (None, None))
           (fun _ (_ : unit) => Ret (None, None, None))
           (Constraint.mkSystem Ecc.BN254 Constraint.R1CS 10 2) (Plonk.mkSRS Ecc.BN254 tt)
           None None []))).
  reflexivity.
Defined.

End PlonkBackend.

(* ===================================================================== *)
(** ** test: what the SRS cache keeps and what it forgets                 *)
(* ===================================================================== *)

Module TestKZGLaws.
Import Go TestKZG.

Section Laws.
Context {SRSData : Type}.
Variable NextPowerOfTwo : Z -> Z.
Variable ScalarField : Ecc.ID -> Z.
Variable kzg_NewSRS : Ecc.ID -> Z -> Z -> SRSData + string.

Abbreviation newKZGSRS := (newKZGSRS ScalarField kzg_NewSRS).
Abbreviation getCachedSRS := (getCachedSRS ScalarField kzg_NewSRS).
Abbreviation NewKZGSRS := (NewKZGSRS NextPowerOfTwo ScalarField kzg_NewSRS).
Abbreviation generates := (generates ScalarField kzg_NewSRS).

Definition is_srs (res : Outcome (SRS * error)) : bool :=
  match res with
  | Ret (Some _, None) => true
  | _ => false
  end.

(** What one call may have done to the world: the cache and the store of
    objects only grow, at most one scalar is drawn. *)
Definition grows (w w' : @World SRSData) : Prop :=
  srsCache w ⊆ srsCache w' /\
  objects w `prefix_of` objects w' /\
  entropy w' = entropy w /\
  (drawn w <= drawn w' <= Datatypes.S (drawn w))%nat.

(** The outcomes of [newKZGSRS]. *)
Lemma newKZGSRS_outcomes curve size (w : @World SRSData) :
  let drew := mkWorld (srsCache w) (objects w) (entropy w) (Datatypes.S (drawn w)) in
  (ScalarField curve <= 0 /\ newKZGSRS curve size w = (Panic rand_bad_max, w)) \/
  (0 < ScalarField curve /\ entropy w (drawn w) = None /\
     newKZGSRS curve size w = (Ret (None, Some rand_failure), drew)) \/
  (exists r, 0 < ScalarField curve /\ entropy w (drawn w) = Some r /\
     has_kzg curve = false /\
     newKZGSRS curve size w = (Panic unrecognized_curve, drew)) \/
  (exists r err, 0 < ScalarField curve /\ entropy w (drawn w) = Some r /\
     has_kzg curve = true /\
     kzg_NewSRS curve size (r mod ScalarField curve) = inr err /\
     newKZGSRS curve size w = (Ret (None, Some err), drew)) \/
  (exists r data, generates curve size w r data /\
     newKZGSRS curve size w
     = (Ret (Some (length (objects w)), None),
        mkWorld (srsCache w) (objects w ++ [data]) (entropy w) (Datatypes.S (drawn w)))).
Proof.
  intros drew. unfold TestKZG.newKZGSRS, rand_Int.
  destruct (Z.leb_spec (ScalarField curve) 0) as [Hle|Hgt]; [by left|right].
  destruct (entropy w (drawn w)) as [r|] eqn:He; [right|by left].
  destruct (has_kzg curve) eqn:Hk.
  - right.
    destruct (kzg_NewSRS curve size (r mod ScalarField curve)) as [data|err] eqn:Hn.
    + right. exists r, data. split; [done|].
      destruct curve; try discriminate Hk; unfold return_NewSRS; by rewrite Hn.
    + left. exists r, err. repeat split; try done.
      destruct curve; try discriminate Hk; unfold return_NewSRS; by rewrite Hn.
  - left. exists r. repeat split; try done. by destruct curve.
Qed.

Lemma grows_refl (w : @World SRSData) : grows w w.
Proof. repeat split; try done. lia. Qed.

Lemma newKZGSRS_grows curve size (w : @World SRSData) :
  grows w (snd (newKZGSRS curve size w)) /\
  srsCache (snd (newKZGSRS curve size w)) = srsCache w /\
  (is_srs (fst (newKZGSRS curve size w)) = false ->
   objects (snd (newKZGSRS curve size w)) = objects w).
Proof.
  destruct (newKZGSRS_outcomes curve size w)
    as [[_ ->]|[(_ & _ & ->)|[(r & _ & _ & _ & ->)|[(r & err & _ & _ & _ & _ & ->)|(r & data & _ & ->)]]]];
    unfold grows; simpl; repeat split; try done; try lia; by apply prefix_app_r.
Qed.

(** X14. Whatever a call to [NewKZGSRS] returns, it never removes or
    replaces a cache entry and never drops an SRS already allocated; it
    draws at most one scalar; and unless it returns an SRS (with a nil
    error) the cache and the allocated objects are exactly as before: a
    failed generation leaves no entry behind. *)
Theorem NewKZGSRS_only_grows (ccs : Constraint.ConstraintSystem) (w : @World SRSData) :
  grows w (snd (NewKZGSRS ccs w)) /\
  (is_srs (fst (NewKZGSRS ccs w)) = false ->
   srsCache (snd (NewKZGSRS ccs w)) = srsCache w /\
   objects (snd (NewKZGSRS ccs w)) = objects w).
Proof.
  destruct ccs as [ccs|]; simpl; [|split; [apply grows_refl|done]].
  destruct (kzgSize_of NextPowerOfTwo ccs <=? srsCachedSize).
  - unfold TestKZG.getCachedSRS.
    destruct (srsCache w !! curveID_of ccs) as [a|] eqn:Hlook; simpl;
      [split; [apply grows_refl|done]|].
    destruct (newKZGSRS_grows (curveID_of ccs) srsCachedSize w) as ((Hc & Ho & He & Hd) & Hcache & Hobj).
    destruct (newKZGSRS (curveID_of ccs) srsCachedSize w) as [[[[a|] [e|]]|msg] w1];
      simpl in *; repeat split; simpl; try done; try lia; try (by apply Hobj).
    rewrite Hcache. by apply insert_subseteq.
  - destruct (newKZGSRS_grows (curveID_of ccs) (kzgSize_of NextPowerOfTwo ccs) w)
      as (Hg & Hcache & Hobj).
    split; [exact Hg|]. intros Hno. split; [exact Hcache|by apply Hobj].
Qed.

(** Every cached SRS is an allocated object of [srsCachedSize] elements
    for the curve it is cached under. *)
Definition cache_wf (w : @World SRSData) : Prop :=
  forall curve a, srsCache w !! curve = Some a ->
    exists data alpha,
      objects w !! a = Some data /\ kzg_NewSRS curve srsCachedSize alpha = inl data.

(** X15. [NewKZGSRS] keeps the cache well formed, and from a well-formed
    cache every SRS it returns for a size up to the threshold has
    [srsCachedSize] elements and belongs to the curve of the system,
    whether it was generated by this call or by an earlier one. *)
Theorem NewKZGSRS_keeps_cache_well_formed (ccs : Constraint.System) (w : @World SRSData) :
  cache_wf w ->
  cache_wf (snd (NewKZGSRS (Some ccs) w)) /\
  (kzgSize_of NextPowerOfTwo ccs <= srsCachedSize ->
   forall srs w',
     NewKZGSRS (Some ccs) w = (Ret (Some srs, None), w') ->
     exists data alpha,
       srs_object w' (Some srs) = Some data /\
       kzg_NewSRS (Constraint.curve ccs) srsCachedSize alpha = inl data).
Proof.
  intros Hwf.
  assert (Hext : forall data, cache_wf
    (mkWorld (srsCache w) (objects w ++ [data]) (entropy w) (Datatypes.S (drawn w)))).
  { intros data c a Hin. destruct (Hwf c a Hin) as (d & alpha & Hd & Hn).
    exists d, alpha. split; [|done]. simpl. by apply lookup_app_l_Some. }
  assert (Hsame : forall n, cache_wf (mkWorld (srsCache w) (objects w) (entropy w) n)).
  { intros n c a Hin. by apply Hwf. }
  simpl. destruct (Z.leb_spec (kzgSize_of NextPowerOfTwo ccs) srsCachedSize) as [Hle|Hgt].
  - unfold TestKZG.getCachedSRS, curveID_of.
    destruct (srsCache w !! Constraint.curve ccs) as [a|] eqn:Hlook; simpl.
    { split; [done|]. intros _ srs w' [= <- <-]. by apply Hwf. }
    destruct (newKZGSRS_outcomes (Constraint.curve ccs) srsCachedSize w)
      as [[_ ->]|[(_ & _ & ->)|[(r & _ & _ & _ & ->)|[(r & err & _ & _ & _ & _ & ->)|(r & data & Hgen & ->)]]]];
      simpl; try (split; [by apply Hsame || done|]; by intros _ srs w').
    split.
    + intros c a Hin. simpl in *.
      destruct (decide (Constraint.curve ccs = c)) as [<-|Hne].
      * rewrite lookup_insert_eq in Hin. injection Hin as <-.
        exists data, (r mod ScalarField (Constraint.curve ccs)). split.
        -- rewrite lookup_app_r by lia. by rewrite Nat.sub_diag.
        -- apply Hgen.
      * rewrite lookup_insert_ne in Hin by done.
        destruct (Hwf c a Hin) as (d & alpha & Hd & Hn).
        exists d, alpha. split; [by apply lookup_app_l_Some|done].
    + intros _ srs w' [= <- <-]. simpl.
      exists data, (r mod ScalarField (Constraint.curve ccs)). split.
      * rewrite lookup_app_r by lia. by rewrite Nat.sub_diag.
      * apply Hgen.
  - split; [|lia].
    destruct (newKZGSRS_outcomes (curveID_of ccs) (kzgSize_of NextPowerOfTwo ccs) w)
      as [[_ ->]|[(_ & _ & ->)|[(r & _ & _ & _ & ->)|[(r & err & _ & _ & _ & _ & ->)|(r & data & Hgen & ->)]]]];
      simpl; by apply Hsame || apply Hext || done.
Qed.

(** X16. A failure of the randomness source is not remembered: below the
    threshold and on a cache miss the call returns the reader's error with
    a nil SRS and caches nothing, and the next call, if the reader then
    delivers, generates and caches the SRS. *)
Theorem NewKZGSRS_retries_after_failure (ccs : Constraint.System) (w : @World SRSData) :
  kzgSize_of NextPowerOfTwo ccs <= srsCachedSize ->
  srsCache w !! Constraint.curve ccs = None ->
  0 < ScalarField (Constraint.curve ccs) ->
  entropy w (drawn w) = None ->
  exists w1,
    NewKZGSRS (Some ccs) w = (Ret (None, Some rand_failure), w1) /\
    srsCache w1 = srsCache w /\ objects w1 = objects w /\
    drawn w1 = Datatypes.S (drawn w) /\
    forall r data,
      generates (Constraint.curve ccs) srsCachedSize w1 r data ->
      exists w2,
        NewKZGSRS (Some ccs) w1 = (Ret (Some (length (objects w)), None), w2) /\
        srsCache w2 !! Constraint.curve ccs = Some (length (objects w)).
Proof.
  intros Hle Hmiss Hf He. simpl.
  destruct (Z.leb_spec (kzgSize_of NextPowerOfTwo ccs) srsCachedSize) as [_|Hgt]; [|lia].
  unfold TestKZG.getCachedSRS, curveID_of. rewrite Hmiss.
  destruct (newKZGSRS_outcomes (Constraint.curve ccs) srsCachedSize w)
    as [[Hbad _]|[(_ & _ & ->)|[(r & _ & Hr & _)|[(r & err & _ & Hr & _)|(r & data & (_ & _ & Hr & _) & _)]]]];
    try lia; try congruence.
  eexists. split; [reflexivity|]. simpl. repeat split.
  intros r data Hgen. simpl. rewrite Hmiss.
  rewrite (newKZGSRS_generates _ _ _ _ _ _ _ Hgen). simpl.
  eexists. split; [reflexivity|]. simpl. apply lookup_insert_eq.
Qed.

(** X17. A curve [newKZGSRS] has no case for is only found out after the
    scalar has been drawn: with a working reader the call panics with
    "unrecognized R1CS curve type", one draw of randomness spent and
    nothing cached or allocated; with a failing reader it returns the
    reader's error instead of panicking. *)
Theorem NewKZGSRS_unsupported_curve (ccs : Constraint.System) (w : @World SRSData) :
  has_kzg (Constraint.curve ccs) = false ->
  0 < ScalarField (Constraint.curve ccs) ->
  srsCache w !! Constraint.curve ccs = None ->
  let drew := mkWorld (srsCache w) (objects w) (entropy w) (Datatypes.S (drawn w)) in
  NewKZGSRS (Some ccs) w
  = match entropy w (drawn w) with
    | Some _ => (Panic unrecognized_curve, drew)
    | None => (Ret (None, Some rand_failure), drew)
    end.
Proof.
  intros Hk Hf Hmiss drew. simpl.
  assert (Hnew : forall size,
    newKZGSRS (Constraint.curve ccs) size w
    = match entropy w (drawn w) with
      | Some _ => (Panic unrecognized_curve, drew)
      | None => (Ret (None, Some rand_failure), drew)
      end).
  { intros size.
    destruct (newKZGSRS_outcomes (Constraint.curve ccs) size w)
      as [[Hbad _]|[(_ & -> & ->)|[(r & _ & -> & _ & ->)|[(r & err & _ & _ & Hk' & _)|(r & data & (Hk' & _) & _)]]]];
      try lia; try congruence; done. }
  destruct (kzgSize_of NextPowerOfTwo ccs <=? srsCachedSize).
  - unfold TestKZG.getCachedSRS, curveID_of. rewrite Hmiss, Hnew.
    by destruct (entropy w (drawn w)).
  - apply Hnew.
Qed.

End Laws.

(** A reader that fails once, and a system over a curve without KZG. *)
Definition w_fail : @World (Ecc.ID * Z * Z) :=
  mkWorld ∅ [] (fun n => match n with O => None | _ => Some 17 end) 0.

Definition exotic : Constraint.System :=
  Constraint.mkSystem (Ecc.OtherID 3) Constraint.SparseR1CS 10 2.

Lemma NewKZGSRS_only_grows_witness :
  srsCache (snd (Demo.run (Some exotic) Demo.w0)) = srsCache Demo.w0 /\
  objects (snd (Demo.run (Some exotic) Demo.w0)) = objects Demo.w0.
Proof.
  apply (NewKZGSRS_only_grows Demo.NextPowerOfTwo Demo.ScalarField Demo.NewSRS
           (Some exotic) Demo.w0).
  reflexivity.
Defined.

Lemma NewKZGSRS_keeps_cache_well_formed_witness :
  cache_wf Demo.NewSRS (snd (Demo.run (Some Demo.small) Demo.w0)).
Proof.
  apply (NewKZGSRS_keeps_cache_well_formed Demo.NextPowerOfTwo Demo.ScalarField Demo.NewSRS
           Demo.small Demo.w0).
  intros c a Hin. simpl in Hin. by rewrite lookup_empty in Hin.
Defined.

Lemma NewKZGSRS_retries_after_failure_witness :
  exists w1,
    Demo.run (Some Demo.small) w_fail = (Ret (None, Some rand_failure), w1) /\
    srsCache w1 = srsCache w_fail /\ objects w1 = objects w_fail /\
    drawn w1 = 1%nat /\
    forall r data,
      generates Demo.ScalarField Demo.NewSRS Ecc.BN254 srsCachedSize w1 r data ->
      exists w2,
        Demo.run (Some Demo.small) w1 = (Ret (Some 0%nat, None), w2) /\
        srsCache w2 !! Ecc.BN254 = Some 0%nat.
Proof.
  apply (NewKZGSRS_retries_after_failure Demo.NextPowerOfTwo Demo.ScalarField Demo.NewSRS
           Demo.small w_fail); by vm_compute.
Defined.

Lemma NewKZGSRS_unsupported_curve_witness :
  Demo.run (Some exotic) Demo.w0
  = (Panic unrecognized_curve, mkWorld ∅ [] (entropy Demo.w0) 1).
Proof.
  apply (NewKZGSRS_unsupported_curve Demo.NextPowerOfTwo Demo.ScalarField Demo.NewSRS
           exotic Demo.w0); by vm_compute.
Defined.

End TestKZGLaws.

(* ===================================================================== *)
(** ** test: the compilation cache and the solving assertions             *)
(* ===================================================================== *)

Module TestEngineLaws.
Import TestEngine.

Section Laws.
Context `{env : Env}.

(** X18. The cache key does not contain the compile options: once
    [compile] has returned a constraint system, any later call for the
    same circuit, curve and backend returns that same system without
    compiling and without touching the state, even when it is given
    other compile options. *)
Theorem compile_hit_ignores_options circuit curveID backendID opts opts' st st' ccs :
  compile circuit curveID backendID opts st = (TRet (Some ccs, None), st') ->
  compile circuit curveID backendID opts' st' = (TRet (Some ccs, None), st').
Proof.
  unfold compile, getCircuitAddr.
  destruct (is_Ptr circuit); [|done].
  set (key := cache_key circuit curveID backendID (Pointer circuit)).
  destruct (compiled st !! key) as [c|] eqn:Hlook.
  - intros [= <- <-]. by rewrite Hlook.
  - destruct (newBuilder_of backendID) as [nb|]; [|done].
    destruct (frontend_Compile curveID nb circuit opts (world st)) as [[c1|e1] w1]; [|done].
    destruct (frontend_Compile curveID nb circuit opts w1) as [[c2|e2] w2]; [|done].
    case_bool_decide; [|done].
    intros [= <- <-]. simpl. by rewrite lookup_insert_eq.
Qed.

Lemma compile_effect circuit curveID backendID opts st :
  logged (snd (compile circuit curveID backendID opts st)) = logged st /\
  compiled st ⊆ compiled (snd (compile circuit curveID backendID opts st)) /\
  ((forall ccs, fst (compile circuit curveID backendID opts st) <> TRet (Some ccs, None)) ->
   compiled (snd (compile circuit curveID backendID opts st)) = compiled st).
Proof.
  unfold compile, getCircuitAddr.
  destruct (is_Ptr circuit); [|done].
  set (key := cache_key circuit curveID backendID (Pointer circuit)).
  destruct (compiled st !! key) as [c|] eqn:Hlook; [done|].
  destruct (newBuilder_of backendID) as [nb|]; [|done].
  destruct (frontend_Compile curveID nb circuit opts (world st)) as [[c1|e1] w1]; [|done].
  destruct (frontend_Compile curveID nb circuit opts w1) as [[c2|e2] w2]; [|done].
  case_bool_decide; [|done]. simpl. repeat split.
  - by apply insert_subseteq.
  - intros Hno. by destruct (Hno c1).
Qed.

(** X19. [compile] never writes to the test log and never removes or
    replaces a cached system; and unless it returns a constraint system
    the cache is exactly as before: non-pointer circuits, unknown
    backends, compile errors and non-determinism faults cache nothing. *)
Theorem compile_only_adds circuit curveID backendID opts st :
  logged (snd (compile circuit curveID backendID opts st)) = logged st /\
  compiled st ⊆ compiled (snd (compile circuit curveID backendID opts st)) /\
  ((forall ccs, fst (compile circuit curveID backendID opts st) <> TRet (Some ccs, None)) ->
   compiled (snd (compile circuit curveID backendID opts st)) = compiled st).
Proof. apply compile_effect. Qed.

(** The assertion helpers leave the state alone. *)
Lemma checkError_state err b curve w circuit st :
  snd (checkError err b curve w circuit st) = st.
Proof.
  unfold checkError, lazySchema, bind, ret, FailNow, panic.
  destruct err; [|done]. by destruct (schema_New circuit).
Qed.

Lemma mustError_state err b curve w circuit st :
  snd (mustError err b curve w circuit st) = st.
Proof.
  unfold mustError, lazySchema, bind, ret, FailNow, panic.
  destruct err; [done|]. by destruct (schema_New circuit).
Qed.

Lemma checkError_returns err b curve w circuit st :
  fst (checkError err b curve w circuit st) = TRet tt <-> err = None.
Proof.
  unfold checkError, lazySchema, bind, ret, FailNow, panic.
  destruct err; [|done]. by destruct (schema_New circuit).
Qed.

Lemma mustError_returns err b curve w circuit st :
  fst (mustError err b curve w circuit st) = TRet tt <-> err <> None.
Proof.
  unfold mustError, lazySchema, bind, ret, FailNow, panic.
  destruct err; [done|]. by destruct (schema_New circuit).
Qed.

(** [solvingSucceeded] and [solvingFailed] unfolded step by step: [check]
    is [checkError] for the one and [mustError] for the other. *)
Definition solving (check : error -> BackendID -> Ecc.ID -> Witness -> Circuit -> T unit)
    (msg : string) (circuit assignment : Circuit) (b : BackendID) (curve : Ecc.ID)
    (opt : testingConfig) : T unit :=
  fun st =>
    match frontend_NewWitness assignment curve with
    | inr _ => (TFailNow msg, st)
    | inl wit =>
        match compile circuit curve b (compileOpts opt) st with
        | (TRet (ccs, err), st1) =>
            match checkError err b curve wit circuit st1 with
            | (TRet _, st2) =>
                match check (foreign (IsSolved circuit assignment curve false))
                        b curve wit circuit st2 with
                | (TRet _, st3) =>
                    match call_IsSolved ccs wit (solverOpts opt) st3 with
                    | (TRet err', st4) => check err' b curve wit circuit st4
                    | (TFailNow m, st4) => (TFailNow m, st4)
                    | (TPanic m, st4) => (TPanic m, st4)
                    end
                | (TFailNow m, st3) => (TFailNow m, st3)
                | (TPanic m, st3) => (TPanic m, st3)
                end
            | (TFailNow m, st2) => (TFailNow m, st2)
            | (TPanic m, st2) => (TPanic m, st2)
            end
        | (TFailNow m, st1) => (TFailNow m, st1)
        | (TPanic m, st1) => (TPanic m, st1)
        end
    end.

Lemma solvingSucceeded_steps circuit w b curve opt st :
  solvingSucceeded circuit w b curve opt st
  = solving checkError "can't parse valid assignment" circuit w b curve opt st.
Proof.
  unfold solvingSucceeded, solving, bind, NoError, ret, FailNow.
  destruct (frontend_NewWitness w curve) as [wit|e]; [|done].
  by destruct (compile circuit curve b (compileOpts opt) st) as [[[ccs err]|m|m] st1].
Qed.

Lemma solvingFailed_steps circuit w b curve opt st :
  solvingFailed circuit w b curve opt st
  = solving mustError "can't parse invalid assignment" circuit w b curve opt st.
Proof.
  unfold solvingFailed, solving, bind, NoError, ret, FailNow.
  destruct (frontend_NewWitness w curve) as [wit|e]; [|done].
  by destruct (compile circuit curve b (compileOpts opt) st) as [[[ccs err]|m|m] st1].
Qed.

Lemma call_IsSolved_state ccs wit opts st :
  snd (call_IsSolved ccs wit opts st) = st.
Proof. unfold call_IsSolved, ret, panic. by destruct ccs. Qed.

(** Both assertions leave the log alone, and return only if the test
    engine gave the verdict [check] asks for. *)
Lemma solving_effect check msg circuit w b curve opt st :
  (forall err b curve wit circuit st, snd (check err b curve wit circuit st) = st) ->
  logged (snd (solving check msg circuit w b curve opt st)) = logged st /\
  (fst (solving check msg circuit w b curve opt st) = TRet tt ->
   exists wit st', fst (check (foreign (IsSolved circuit w curve false)) b curve wit circuit st') = TRet tt).
Proof.
  intros Hcheck. unfold solving.
  destruct (frontend_NewWitness w curve) as [wit|e]; [|done].
  destruct (compile_effect circuit curve b (compileOpts opt) st) as (Hlog & _).
  destruct (compile circuit curve b (compileOpts opt) st) as [[[ccs err]|m|m] st1];
    simpl in Hlog; try done.
  pose proof (checkError_state err b curve wit circuit st1) as H1.
  destruct (checkError err b curve wit circuit st1) as [[[]|m|m] st2];
    simpl in H1; subst st2; try done.
  pose proof (Hcheck (foreign (IsSolved circuit w curve false)) b curve wit circuit st1) as H2.
  destruct (check (foreign (IsSolved circuit w curve false)) b curve wit circuit st1)
    as [[[]|m|m] st3] eqn:Hc; simpl in H2; subst st3; try done.
  pose proof (call_IsSolved_state ccs wit (solverOpts opt) st1) as H3.
  destruct (call_IsSolved ccs wit (solverOpts opt) st1) as [[err'|m|m] st4];
    simpl in H3; subst st4; try done.
  rewrite Hcheck. split; [done|]. intros _. exists wit, st1. by rewrite Hc.
Qed.

(** X20. No assignment passes both [solvingSucceeded] and
    [solvingFailed], and neither of them ever writes to the test log. *)
Theorem solving_assertions_exclusive circuit w b curve opt st :
  ~ (fst (solvingSucceeded circuit w b curve opt st) = TRet tt /\
     fst (solvingFailed circuit w b curve opt st) = TRet tt) /\
  logged (snd (solvingSucceeded circuit w b curve opt st)) = logged st /\
  logged (snd (solvingFailed circuit w b curve opt st)) = logged st.
Proof.
  rewrite solvingSucceeded_steps, solvingFailed_steps.
  destruct (solving_effect checkError "can't parse valid assignment" circuit w b curve opt st
              checkError_state) as [Hlog1 Hret1].
  destruct (solving_effect mustError "can't parse invalid assignment" circuit w b curve opt st
              mustError_state) as [Hlog2 Hret2].
  split; [|by split].
  intros [Hs Hf].
  destruct (Hret1 Hs) as (wit1 & st1 & H1). destruct (Hret2 Hf) as (wit2 & st2 & H2).
  apply checkError_returns in H1. apply mustError_returns in H2. done.
Qed.

(** X21. When the test engine and the compiled constraint system
    disagree on an assignment, it passes neither [solvingSucceeded] nor
    [solvingFailed]. *)
Theorem solving_needs_agreement circuit w b curve opt st wit ccs :
  frontend_NewWitness w curve = inl wit ->
  fst (compile circuit curve b (compileOpts opt) st) = TRet (Some ccs, None) ->
  is_nil (IsSolved circuit w curve false) <> is_nil (ccs_IsSolved ccs wit (solverOpts opt)) ->
  fst (solvingSucceeded circuit w b curve opt st) <> TRet tt /\
  fst (solvingFailed circuit w b curve opt st) <> TRet tt.
Proof.
  intros Hw Hc Hdis.
  rewrite solvingSucceeded_steps, solvingFailed_steps. unfold solving. rewrite Hw.
  destruct (compile circuit curve b (compileOpts opt) st) as [[[ccs' err]|m|m] st1];
    simpl in Hc; try done.
  injection Hc as -> ->.
  unfold checkError at 1 3, mustError, call_IsSolved, lazySchema, bind, ret, FailNow, panic,
    foreign.
  destruct (IsSolved circuit w curve false) as [ev|],
           (ccs_IsSolved ccs wit (solverOpts opt)) as [ec|]; simpl in Hdis; try done;
    unfold checkError, lazySchema, bind, ret, FailNow, panic;
    destruct (schema_New circuit); done.
Qed.

(** X22. [fuzzer] writes to the test log only when the two verdicts of
    the test engine disagree. *)
Theorem fuzzer_logs_only_on_mismatch fill circuit w b curve opt st :
  let w' := fst (fill w curve (world st)) in
  is_nil (IsSolved circuit w' curve false) = is_nil (IsSolved circuit w' curve true) ->
  logged (snd (fuzzer fill circuit w b curve opt st)) = logged st.
Proof.
  intros w' Hagree.
  pose proof (fuzzer_unfold fill circuit w b curve opt st) as Hrun.
  simpl in Hrun. fold w' in Hrun. rewrite Hrun. clear Hrun.
  set (st1 := set_world st (snd (fill w curve (world st)))).
  destruct (IsSolved circuit w' curve false) as [ev|],
           (IsSolved circuit w' curve true) as [ec|]; try done; unfold bind, ret.
  - rewrite solvingFailed_steps.
    destruct (solving_effect mustError "can't parse invalid assignment" circuit w' b curve opt st1
                mustError_state) as [Hlog _].
    by destruct (solving mustError _ circuit w' b curve opt st1) as [[[]|m|m] st2].
  - rewrite solvingSucceeded_steps.
    destruct (solving_effect checkError "can't parse valid assignment" circuit w' b curve opt st1
                checkError_state) as [Hlog _].
    by destruct (solving checkError _ circuit w' b curve opt st1) as [[[]|m|m] st2].
Qed.

End Laws.

Lemma compile_hit_ignores_options_witness :
  @compile Demo.steady_env Demo.circuit Ecc.BN254 PLONK [tt; tt]
    (@mkTState Demo.steady_env {[ "12*test.squareCircuit824633802752" := 36 ]} [] 2%nat)
  = (TRet (Some 36, None),
     @mkTState Demo.steady_env {[ "12*test.squareCircuit824633802752" := 36 ]} [] 2%nat).
Proof.
  apply (@compile_hit_ignores_options Demo.steady_env Demo.circuit Ecc.BN254 PLONK []
           [tt; tt] (Demo.st0 Demo.steady_env 0%nat)).
  vm_compute. reflexivity.
Defined.

(** An environment whose test engine accepts everything. *)
Definition lenient_env : Env := Demo.env Demo.steady (fun _ _ => None).

Lemma solving_needs_agreement_witness :
  fst (@solvingSucceeded lenient_env Demo.circuit (true, 5) PLONK Ecc.BN254
         (Demo.cfg lenient_env [] []) (Demo.st0 lenient_env 0%nat)) <> TRet tt /\
  fst (@solvingFailed lenient_env Demo.circuit (true, 5) PLONK Ecc.BN254
         (Demo.cfg lenient_env [] []) (Demo.st0 lenient_env 0%nat)) <> TRet tt.
Proof.
  apply (@solving_needs_agreement lenient_env Demo.circuit (true, 5) PLONK Ecc.BN254
           (Demo.cfg lenient_env [] []) (Demo.st0 lenient_env 0%nat) 5 36).
  - reflexivity.
  - vm_compute. reflexivity.
  - vm_compute. discriminate.
Defined.

Lemma fuzzer_logs_only_on_mismatch_witness :
  logged (snd (@fuzzer Demo.steady_env (Demo.set_a 5) Demo.circuit Demo.circuit PLONK Ecc.BN254
                 (Demo.cfg Demo.steady_env [] []) (Demo.st0 Demo.steady_env 0%nat)))
  = [].
Proof.
  apply (@fuzzer_logs_only_on_mismatch Demo.steady_env (Demo.set_a 5) Demo.circuit Demo.circuit
           PLONK Ecc.BN254 (Demo.cfg Demo.steady_env [] []) (Demo.st0 Demo.steady_env 0%nat)).
  reflexivity.
Defined.

End TestEngineLaws.

(* ===================================================================== *)
(** ** test: the default testing configuration                            *)
(* ===================================================================== *)

Module TestOptions.
Import TestEngine.

(** A Go slice: nil ([None]) or a list; [reflect.DeepEqual] tells a nil
    slice from an empty one. *)
Definition slice (A : Type) : Type := option (list A).

Section Options.
Context `{env : Env}.
Context {ProverOption : Type}.

(** [gnark.Curves()], [backend.Implemented()] and [testing.Short()]. *)
Variable gnark_Curves : slice Ecc.ID.
Variable backend_Implemented : slice BackendID.
Variable testing_Short : bool.

Record testingConfig := mkTestingConfig {
  backends : slice BackendID;
  curves : slice Ecc.ID;
  witnessSerialization : bool;
  solverOpts : slice SolverOption;
  proverOpts : slice ProverOption;
  compileOpts : slice CompileOption;
  fuzzing : bool
}.

(** A [TestingOption] works on the configuration through a pointer and
    returns an error. *)
Definition TestingOption : Type := testingConfig -> testingConfig * option string.

Definition set_curves (opt : testingConfig) (c : slice Ecc.ID) : testingConfig :=
  mkTestingConfig (backends opt) c (witnessSerialization opt) (solverOpts opt)
    (proverOpts opt) (compileOpts opt) (fuzzing opt).

Definition defaults : testingConfig :=
  mkTestingConfig backend_Implemented gnark_Curves true None None None true.

Fixpoint apply_all (opts : list TestingOption) (opt : testingConfig) : T testingConfig :=
  match opts with
  | [] => ret opt
  | option :: rest =>
      match option opt with
      | (opt', None) => apply_all rest opt'
      | (_, Some _) => FailNow "parsing TestingOption"
      end
  end.

(** [options]. *)
Definition options (opts : list TestingOption) : T testingConfig :=
  bind (apply_all opts defaults) (fun opt =>
    if testing_Short then
      if bool_decide (curves opt = gnark_Curves) then ret (set_curves opt (Some [Ecc.BN254]))
      else ret opt
    else ret opt).

Lemma apply_all_state opts : forall opt st, snd (apply_all opts opt st) = st.
Proof.
  induction opts as [|o opts IH]; intros opt st; simpl; [done|].
  destruct (o opt) as [opt' [e|]]; [done|apply IH].
Qed.

End Options.

(** X23. In short mode [options] never returns the full list
    [gnark.Curves()]: whether that list was left by default or selected
    by an option, it is replaced by BN254 alone; so a configuration that
    still has the curves of [gnark.Curves()] can only come from
    [gnark.Curves()] being BN254 alone.  [options] never touches the
    state of the test. *)
Theorem options_short_mode `{env : Env} {ProverOption : Type}
    (gnark_Curves : slice Ecc.ID) (backend_Implemented : slice BackendID)
    (opts : list (@TestingOption env ProverOption)) (st : TState) :
  snd (options gnark_Curves backend_Implemented true opts st) = st /\
  forall opt,
    fst (options gnark_Curves backend_Implemented true opts st) = TRet opt ->
    (curves opt = gnark_Curves -> gnark_Curves = Some [Ecc.BN254]) /\
    (curves opt <> Some [Ecc.BN254] ->
     fst (options gnark_Curves backend_Implemented false opts st) = TRet opt).
Proof.
  unfold options, bind.
  pose proof (apply_all_state opts (defaults gnark_Curves backend_Implemented) st) as Hst.
  destruct (apply_all opts (defaults gnark_Curves backend_Implemented) st)
    as [[opt0|m|m] st1]; simpl in Hst; subst st1; [|done|done].
  case_bool_decide as Hc; simpl.
  - split; [done|]. intros opt [= <-]. simpl. split; [by intros <-|done].
  - split; [done|]. intros opt [= <-]. by split.
Qed.

Example options_short_default :
  fst (@options Demo.steady_env unit (Some [Ecc.BN254; Ecc.BLS12_381]) (Some [GROTH16; PLONK])
         true [] (Demo.st0 Demo.steady_env 0%nat))
  = TRet (mkTestingConfig (Some [GROTH16; PLONK]) (Some [Ecc.BN254]) true None None None true).
Proof. reflexivity. Qed.

End TestOptions.

(* ===================================================================== *)
(** ** std/signature/eddsa: what every run of [Verify] does               *)
(* ===================================================================== *)

Module EddsaLaws.
Import Go Eddsa.

Section Laws.
Context {wire : Type} `{curve : @Curve wire} `{hash : @Hash wire}.

Definition is_AssertIsOnCurve (c : @Call wire) : bool :=
  match c with CurveAssertIsOnCurve _ => true | _ => false end.

(** The calls that follow the computation of [R - ([S]G - [H(R,A,M)]A)],
    for each cofactor. *)
Definition epilogue (Q' : @Point wire) : list (@Call wire) :=
  if negb (IsUint64 (Cofactor Params)) then [LogSend log_invalid_cofactor]
  else if Uint64 (Cofactor Params) =? 4 then
    [ CurveDouble Q'; CurveDouble (Double Q');
      ApiAssertIsEqual (X (Double (Double Q'))) (Const 0);
      ApiAssertIsEqual (Y (Double (Double Q'))) (Const 1) ]
  else if Uint64 (Cofactor Params) =? 8 then
    [ CurveDouble Q'; CurveDouble (Double Q'); CurveDouble (Double (Double Q'));
      ApiAssertIsEqual (X (Double (Double (Double Q')))) (Const 0);
      ApiAssertIsEqual (Y (Double (Double (Double Q')))) (Const 1) ]
  else
    [ LogSend log_not_implemented;
      ApiAssertIsEqual (X Q') (Const 0);
      ApiAssertIsEqual (Y Q') (Const 1) ].

Lemma snoc_app {T} (l : list T) (x : T) (k : list T) :
  ((l ++ [x]) ++ k = l ++ x :: k)%list.
Proof. by rewrite <- app_assoc. Qed.

Ltac run_Verify :=
  unfold Verify, after_prelude, prelude, lhs_minus_rhs, sG_minus_hA, hRAM_of,
    curve_Neg, curve_Add, curve_Double, curve_DoubleBaseScalarMul,
    curve_AssertIsOnCurve, api_AssertIsEqual, hash_Write, hash_Sum,
    record, bind, ret; simpl;
  repeat rewrite snoc_app; repeat rewrite <- app_assoc; simpl.

Lemma Verify_state sig msg pubKey s :
  snd (Verify sig msg pubKey s)
  = after_prelude sig msg pubKey s (epilogue (lhs_minus_rhs sig msg pubKey s)).
Proof.
  unfold epilogue. run_Verify.
  destruct (IsUint64 (Cofactor Params)); simpl; [|run_Verify; reflexivity].
  destruct (Uint64 (Cofactor Params) =? 4); simpl; [run_Verify; reflexivity|].
  destruct (Uint64 (Cofactor Params) =? 8); simpl; run_Verify; reflexivity.
Qed.

(** X24. Whatever the cofactor, even one [Verify] rejects, a run starts
    with the same eleven calls: it writes exactly five values to the hash
    (R.X, R.Y, A.X, A.Y, the message) on top of whatever the hash already
    held, so earlier data enters the digest (the hash is never reset);
    it asserts that [S]G - [H]A is on the curve and computes
    [R - ([S]G - [H]A)].  At most five calls follow. *)
Theorem Verify_prelude_unconditional sig msg pubKey s :
  written (snd (Verify sig msg pubKey s))
  = (written s ++ [X (R sig); Y (R sig); X (PubA pubKey); Y (PubA pubKey); msg])%list /\
  exists rest,
    trace (snd (Verify sig msg pubKey s))
    = (trace s ++ prelude sig msg pubKey s ++ rest)%list /\
    (length rest <= 5)%nat.
Proof.
  rewrite Verify_state. split; [reflexivity|].
  exists (epilogue (lhs_minus_rhs sig msg pubKey s)). split; [reflexivity|].
  unfold epilogue.
  destruct (IsUint64 (Cofactor Params)); simpl; [|lia].
  destruct (Uint64 (Cofactor Params) =? 4); simpl; [lia|].
  destruct (Uint64 (Cofactor Params) =? 8); simpl; lia.
Qed.

(** X25. Among the calls a run of [Verify] makes there is exactly one
    [AssertIsOnCurve], and it is on [S]G - [H(R,A,M)]A: [Verify] itself
    never asserts that the signature point R or the public key A is on
    the curve. *)
Theorem Verify_asserts_only_Q_on_curve sig msg pubKey s :
  filter (fun c => is_AssertIsOnCurve c = true)
    (drop (length (trace s)) (trace (snd (Verify sig msg pubKey s))))
  = [CurveAssertIsOnCurve (sG_minus_hA sig msg pubKey s)].
Proof.
  rewrite Verify_state. unfold after_prelude. simpl.
  rewrite drop_app_length. unfold prelude, epilogue.
  destruct (IsUint64 (Cofactor Params)); simpl; [|reflexivity].
  destruct (Uint64 (Cofactor Params) =? 4); simpl; [reflexivity|].
  destruct (Uint64 (Cofactor Params) =? 8); simpl; reflexivity.
Qed.

End Laws.

Example Verify_asserts_only_Q_on_curve_toy :
  filter (fun c => is_AssertIsOnCurve c = true)
    (trace (snd (@Verify _ (Toy.curve 4) Toy.hash Toy.sig Toy.msg Toy.pubKey Toy.s0)))
  = [CurveAssertIsOnCurve (@sG_minus_hA _ (Toy.curve 4) Toy.hash Toy.sig Toy.msg Toy.pubKey Toy.s0)].
Proof. vm_compute. reflexivity. Qed.

End EddsaLaws.

(* ===================================================================== *)
(** ** std/hints.go: registering the hints of the standard library once   *)
(* ===================================================================== *)

Module Std.

Section Hints.

(** The registry of the solver package, its [RegisterHint] and [NewHint],
    the hint functions of the gadgets and the lists [selector.GetHints()]
    and [emulated.GetHints()]. *)
Context {Registry HintFn Hint : Type}.
Variable RegisterHint : list Hint -> Registry -> Registry.
Variable NewHint : string -> HintFn -> Hint.
Variables (bls24315_DecomposeScalarG1 bls12377_DecomposeScalarG1 : HintFn).
Variables (bls24315_DecomposeScalarG2 bls12377_DecomposeScalarG2 : HintFn).
Variables (bits_NTrits bits_NNAF bits_IthBit bits_NBits : HintFn).
Variables (rangecheck_CountHint rangecheck_DecomposeHint : HintFn).
Variables (selector_GetHints emulated_GetHints : list Hint).

(** The arguments of the calls to [solver.RegisterHint], in order. *)
Definition registrations : list (list Hint) :=
  [ [NewHint "decompose_scalar_g1_bls24315" bls24315_DecomposeScalarG1];
    [NewHint "decompose_scalar_g1_bls12377" bls12377_DecomposeScalarG1];
    [NewHint "decompose_scalar_g2_bls24315" bls24315_DecomposeScalarG2];
    [NewHint "decompose_scalar_g2_bls12377" bls12377_DecomposeScalarG2];
    [NewHint "n_trits" bits_NTrits];
    [NewHint "nnaf" bits_NNAF];
    [NewHint "ith_bit" bits_IthBit];
    [NewHint "n_bits" bits_NBits];
    selector_GetHints;
    emulated_GetHints;
    [NewHint "count" rangecheck_CountHint];
    [NewHint "decompose" rangecheck_DecomposeHint] ].

(** [registerHints]. *)
Definition registerHints (r : Registry) : Registry :=
  foldl (fun acc hints => RegisterHint hints acc) r registrations.

(** [registerOnce] (whether its [Do] has run) and the registry. *)
Record State := mkState { registerOnce : bool; registry : Registry }.

(** [RegisterHints]: [registerOnce.Do(registerHints)]. *)
Definition RegisterHints (st : State) : State :=
  if registerOnce st then st
  else mkState true (registerHints (registry st)).

(** What happens to the registry over time: calls to [RegisterHints] and
    changes made by others. *)
Inductive Action :=
| Call
| Other (f : Registry -> Registry).

Definition step (st : State) (a : Action) : State :=
  match a with
  | Call => RegisterHints st
  | Other f => mkState (registerOnce st) (f (registry st))
  end.

Definition run (actions : list Action) (st : State) : State := foldl step st actions.

Definition is_Call (a : Action) : bool :=
  match a with Call => true | Other _ => false end.

Definition without_calls (actions : list Action) : list Action :=
  List.filter (fun a => negb (is_Call a)) actions.

Lemma run_done actions : forall st,
  registerOnce st = true -> run actions st = run (without_calls actions) st.
Proof.
  induction actions as [|a actions IH]; intros st Hdone; simpl; [done|].
  destruct a as [|f]; simpl.
  - unfold RegisterHints. rewrite Hdone. by apply IH.
  - by apply IH.
Qed.

(** X26. [RegisterHints] runs [registerHints] on the first call only:
    after one call, every later call leaves the registry exactly as it
    finds it, whatever has been registered or changed in between. *)
Theorem RegisterHints_runs_once (before after : list Action) (st : State) :
  run (before ++ Call :: after) st = run (before ++ Call :: without_calls after) st.
Proof.
  unfold run. rewrite !foldl_app. simpl.
  apply run_done. unfold RegisterHints.
  by destruct (registerOnce (foldl step st before)) eqn:Hd.
Qed.

End Hints.
End Std.
